(** * Keep client: probe order, replica placement, block cache

    A shallow embedding of [sdk/go/src/arvados.org/keepclient/support.go]
    (the discovery of the servers [discoverKeepServers], the probe sequence
    [shuffledServiceRoots], the uploader [uploadToKeepServer] and the write
    orchestration [putReplicas]) and of the in-memory gateways of the block
    cache tests, with a model of the read path of the disk cache after the
    design document, together with the properties the design document
    states about them. *)

From Stdlib Require Import ZArith NArith Ascii String List Lia.
From stdpp Require Import base option list strings pretty gmap sorting.

Local Open Scope string_scope.
Local Open Scope list_scope.
Local Open Scope Z_scope.

(** ** The Go runtime, as far as the client uses it *)

Module Go.

(** Why a goroutine stopped abnormally. *)
Inductive panic : Set :=
| SliceBounds      (* slice bounds out of range *)
| IndexRange       (* index out of range *)
| DivideByZero     (* integer divide by zero *)
| Deadlock.        (* all goroutines are asleep *)

(** The outcome of running a loop of the source with a step budget. *)
Inductive run (A : Type) : Type :=
| Returns (a : A)
| Panics (why : panic)
| OutOfFuel.
Arguments Returns {A} a.
Arguments Panics {A} why.
Arguments OutOfFuel {A}.

#[global] Instance run_ret : MRet run := @Returns.
#[global] Instance run_bind : MBind run := fun A B k m =>
  match m with
  | Returns a => k a
  | Panics why => Panics why
  | OutOfFuel => OutOfFuel
  end.

(** Go strings are byte sequences. *)
Definition bytes (s : string) : list ascii := list_ascii_of_string s.

(** [len(s)] as a Go [int]. *)
Definition len {A} (s : list A) : Z := Z.of_nat (length s).

(** [s[lo:hi]] *)
Definition slice {A} (s : list A) (lo hi : Z) : run (list A) :=
  if (0 <=? lo) && (lo <=? hi) && (hi <=? len s)
  then Returns (take (Z.to_nat (hi - lo)) (drop (Z.to_nat lo) s))
  else Panics SliceBounds.

(** [s[lo:]] *)
Definition slice_from {A} (s : list A) (lo : Z) : run (list A) :=
  slice s lo (len s).

(** [s[:hi]] *)
Definition slice_to {A} (s : list A) (hi : Z) : run (list A) :=
  slice s 0 hi.

(** [s[i]] *)
Definition index {A} (s : list A) (i : Z) : run A :=
  if (0 <=? i) && (i <? len s)
  then match s !! Z.to_nat i with
       | Some a => Returns a
       | None => Panics IndexRange
       end
  else Panics IndexRange.

(** [a % b] on [uint64]. *)
Definition umod (a b : N) : run N :=
  if (b =? 0)%N then Panics DivideByZero else Returns (a mod b)%N.

(** The errors of [strconv]. *)
Inductive NumError : Set := ErrSyntax | ErrRange.

(** The value of one digit in [strconv.ParseUint]: ['0'..'9'], or a letter
    of either case counted from ten. *)
Definition digit_value (c : ascii) : option N :=
  let b := N_of_ascii c in
  let lower := N.lor b 32 in
  if ((48 <=? b) && (b <=? 57))%N then Some (b - 48)%N
  else if ((97 <=? lower) && (lower <=? 122))%N then Some (lower - 97 + 10)%N
  else None.

(** The digit loop of [strconv.ParseUint(s, 16, 32)]. *)
Fixpoint ParseUint_digits (s : list ascii) (n : N) : N * option NumError :=
  let base := 16%N in
  let cutoff := (18446744073709551615 / 16 + 1)%N in
  let maxVal := (2 ^ 32 - 1)%N in
  match s with
  | [] => (n, None)
  | c :: s' =>
      match digit_value c with
      | None => (0%N, Some ErrSyntax)
      | Some d =>
          if (base <=? d)%N then (0%N, Some ErrSyntax)
          else if (cutoff <=? n)%N then (maxVal, Some ErrRange)
          else
            let n1 := (n * base + d)%N in
            if (maxVal <? n1)%N then (maxVal, Some ErrRange)
            else ParseUint_digits s' n1
      end
  end.

(** [strconv.ParseUint(s, 16, 32)] *)
Definition ParseUint_16_32 (s : list ascii) : N * option NumError :=
  match s with
  | [] => (0%N, Some ErrSyntax)
  | _ => ParseUint_digits s 0%N
  end.

End Go.

Import Go.

(** ** [support.go] *)

Module keepclient.

(** What an HTTP exchange needs from the outside world. *)
Record Request : Type := {
  Method : string;
  URL : string;
  ContentLength : Z;
  Header : list (string * string)
}.

Record Response : Type := {
  StatusCode : Z;
  Status : string;
  (** the [X-Keep-Replicas-Stored] header as [fmt.Sscanf(xr, "%d", &rep)]
      reads it: [None] when the header is absent or holds no integer *)
  X_Keep_Replicas_Stored : option Z
}.

Record HTTPClient : Type := {
  (** whether [http.NewRequest] accepts the URL *)
  NewRequest_ok : string -> bool;
  (** [Client.Do]: [None] is a transport error *)
  Do : Request -> option Response
}.

Record KeepClient : Type := {
  ApiServer : string;
  ApiToken : string;
  Want_replicas : Z;
  Using_proxy : bool;
  External : bool;
  Service_roots : list string;
  Client : HTTPClient
}.

(** *** [shuffledServiceRoots] *)

(** The variables of the loop. *)
Record shuffle : Type := {
  seed : list ascii;
  pool : list string;
  pseq : list string
}.

(** The [if len(seed) < 8 { ... }] block: the seed the selection reads. *)
Definition refill (hash seed : list ascii) (pseq : list string)
  : run (list ascii) :=
  if len seed <? 8 then
    seed' ← (if len pseq <? len hash / 4
             then slice_from hash (len hash - 4)
             else Returns seed);
    Returns (seed' ++ hash)
  else Returns seed.

(** One pass through the body of [for len(pool) > 0]. *)
Definition select (hash : list ascii) (st : shuffle) : run shuffle :=
  seed1 ← refill hash (seed st) (pseq st);
  digits ← slice seed1 0 8;
  let probe := (ParseUint_16_32 digits).1 in
  probe ← umod probe (Z.to_N (len (pool st)));
  server ← index (pool st) (Z.of_N probe);
  let pseq' := pseq st ++ [server] in
  front ← slice_to (pool st) (Z.of_N probe);
  back ← slice_from (pool st) (Z.of_N probe + 1);
  let pool' := front ++ back in
  seed2 ← slice_from seed1 8;
  Returns {| seed := seed2; pool := pool'; pseq := pseq' |}.

Fixpoint shuffle_loop (fuel : nat) (hash : list ascii) (st : shuffle)
  : run (list string) :=
  match pool st with
  | [] => Returns (pseq st)
  | _ :: _ =>
      match fuel with
      | O => OutOfFuel
      | S fuel' => st' ← select hash st; shuffle_loop fuel' hash st'
      end
  end.

Definition shuffle_init (this : KeepClient) (hash : string) : shuffle :=
  {| seed := bytes hash; pool := Service_roots this; pseq := [] |}.

(** Every pass removes one server from the pool, so [len(Service_roots)]
    passes are all the loop can make. *)
Definition shuffledServiceRoots (this : KeepClient) (hash : string)
  : run (list string) :=
  shuffle_loop (length (Service_roots this)) (bytes hash)
    (shuffle_init this hash).

(** The states in which [for len(pool) > 0] tests its condition during
    [this.shuffledServiceRoots(hash)]. *)
Inductive selecting (this : KeepClient) (hash : string) : shuffle -> Prop :=
| selecting_init : selecting this hash (shuffle_init this hash)
| selecting_step st st' :
    selecting this hash st ->
    pool st <> [] ->
    select (bytes hash) st = Returns st' ->
    selecting this hash st'.

(** The first [n] passes of the loop, or all of them if there are fewer. *)
Fixpoint select_n (n : nat) (hash : list ascii) (st : shuffle) : run shuffle :=
  match n with
  | O => Returns st
  | S n' =>
      match pool st with
      | [] => Returns st
      | _ :: _ => st' ← select hash st; select_n n' hash st'
      end
  end.

(** The value of [hash[len(hash)-4:]] where it is in range. *)
Definition tail4 (hash : list ascii) : list ascii :=
  drop (Z.to_nat (len hash - 4)) hash.

(** The refill as the design document words it: the trailing four digits,
    then the full digest again. *)
Definition refill_documented (hash : list ascii) : list ascii :=
  tail4 hash ++ hash.

(** For a hash of [8 * k] digits the seed is always what is left of the
    hash after [j] selections (the first filling) or what is left of
    [tail4 hash ++ hash] (every later one). *)
Definition aligned (hash : list ascii) (st : shuffle) : Prop :=
  (exists j : nat,
      seed st = drop (8 * j) hash
      /\ length (pseq st) = j /\ (8 * j <= length hash)%nat)
  \/ (exists j : nat,
         seed st = drop (8 * j) (tail4 hash ++ hash)
         /\ (8 * j <= length hash + 4)%nat).

(** *** [uploadToKeepServer] *)

Inductive error : Type :=
| InsufficientReplicasError
| NewRequestError            (* the [err] of [http.NewRequest] *)
| TransportError             (* the [err] of [Client.Do] *)
| StatusError (status : string).   (* [errors.New(resp.Status)] *)

Record uploadStatus : Type := {
  err : option error;
  url : string;
  statusCode : Z;
  replicas_stored : Z
}.

(** The one message the uploader sends on [upload_status]. *)
Definition uploadToKeepServer (this : KeepClient) (host hash : string)
  (expectedLength : Z) : uploadStatus :=
  let url := host +:+ "/" +:+ hash in
  if negb (NewRequest_ok (Client this) url) then
    {| err := Some NewRequestError; url := url;
       statusCode := 0; replicas_stored := 0 |}
  else
    let req :=
      {| Method := "PUT"; URL := url;
         ContentLength := if 0 <? expectedLength then expectedLength else 0;
         Header :=
           [("Authorization", "OAuth2 " +:+ ApiToken this);
            ("Content-Type", "application/octet-stream")]
           ++ (if Using_proxy this
               then [("X-Keep-Desired-Replicas", pretty (Want_replicas this))]
               else []) |} in
    match Do (Client this) req with
    | None =>
        {| err := Some TransportError; url := url;
           statusCode := 0; replicas_stored := 0 |}
    | Some resp =>
        let rep := default 1 (X_Keep_Replicas_Stored resp) in
        if StatusCode resp =? 200 then
          {| err := None; url := url;
             statusCode := StatusCode resp; replicas_stored := rep |}
        else
          {| err := Some (StatusError (Status resp)); url := url;
             statusCode := StatusCode resp; replicas_stored := rep |}
    end.

(** The request the uploader hands to [this.Client.Do]. *)
Definition upload_request (this : KeepClient) (host hash : string)
  (expectedLength : Z) : Request :=
  {| Method := "PUT"; URL := host +:+ "/" +:+ hash;
     ContentLength := if 0 <? expectedLength then expectedLength else 0;
     Header :=
       [("Authorization", "OAuth2 " +:+ ApiToken this);
        ("Content-Type", "application/octet-stream")]
       ++ (if Using_proxy this
           then [("X-Keep-Desired-Replicas", pretty (Want_replicas this))]
           else []) |}.

(** *** [putReplicas] *)

(** Go's [int] is 64 bits wide and wraps around. *)
Definition min_int : Z := - 2 ^ 63.
Definition max_int : Z := 2 ^ 63 - 1.
Definition int (z : Z) : Z := (z + 2 ^ 63) mod 2 ^ 64 - 2 ^ 63.
Definition is_int (z : Z) : Prop := min_int <= z <= max_int.

(** The variables of [putReplicas], with the uploaders that have been
    started and whose message has not been received yet ([in_flight], in
    the order they were started) and the messages received so far.
    [next_server] and [active] count servers of [sv], whose length is an
    [int], so they never wrap. *)
Record placer : Type := {
  next_server : Z;
  active : Z;
  remaining_replicas : Z;
  in_flight : list uploadStatus;
  received : list uploadStatus
}.

(** How [for active < remaining_replicas] is left. *)
Inductive started : Type :=
| Wait (st : placer)       (* falls through to [<-upload_status] *)
| GiveUp (st : placer).    (* [return ..., InsufficientReplicasError] *)

(** [go this.uploadToKeepServer(...)], [next_server += 1], [active += 1];
    [status] is the message the new uploader will send. *)
Definition launch (status : uploadStatus) (st : placer) : placer :=
  {| next_server := next_server st + 1;
     active := active st + 1;
     remaining_replicas := remaining_replicas st;
     in_flight := in_flight st ++ [status];
     received := received st |}.

Fixpoint start_uploads (fuel : nat) (this : KeepClient) (hash : string)
  (expectedLength : Z) (sv : list string) (st : placer) : run started :=
  if active st <? remaining_replicas st then
    match fuel with
    | O => OutOfFuel
    | S fuel' =>
        if next_server st <? len sv then
          host ← index sv (next_server st);
          start_uploads fuel' this hash expectedLength sv
            (launch (uploadToKeepServer this host hash expectedLength) st)
        else if active st =? 0 then Returns (GiveUp st)
        else Returns (Wait st)
    end
  else Returns (Wait st).

(** [status := <-upload_status]: one of the started uploaders gets to send;
    [choice] says which. With none started the receive blocks for ever. *)
Definition receive (choice : nat) (st : placer)
  : run (uploadStatus * placer) :=
  let i := (choice `mod` length (in_flight st))%nat in
  match in_flight st !! i with
  | None => Panics Deadlock
  | Some status =>
      Returns (status,
               {| next_server := next_server st;
                  active := active st;
                  remaining_replicas := remaining_replicas st;
                  in_flight := delete i (in_flight st);
                  received := received st ++ [status] |})
  end.

(** The rest of the outer loop's body, after the receive. *)
Definition account (status : uploadStatus) (st : placer) : placer :=
  {| next_server := next_server st;
     active := active st - 1;
     remaining_replicas :=
       if statusCode status =? 200
       then int (remaining_replicas st - replicas_stored status)
       else remaining_replicas st;
     in_flight := in_flight st;
     received := received st |}.

(** What [putReplicas] returns, and the state it returns in. *)
Record placed : Type := {
  replicas : Z;
  failure : option error;
  final : placer
}.

(** One pass through the body of [for remaining_replicas > 0]: either the
    function returns from inside it, or the pass ends in a new state.
    [sched k] picks the uploader whose message is the [k]-th received. *)
Definition pass (this : KeepClient) (hash : string) (expectedLength : Z)
  (sv : list string) (sched : nat -> nat) (st : placer)
  : run (placer + placed) :=
  s ← start_uploads (S (length sv)) this hash expectedLength sv st;
  match s with
  | GiveUp st1 =>
      Returns (inr {| replicas :=
                        int (Want_replicas this - remaining_replicas st1);
                      failure := Some InsufficientReplicasError;
                      final := st1 |})
  | Wait st1 =>
      r ← receive (sched (length (received st1))) st1;
      Returns (inl (account r.1 r.2))
  end.

Fixpoint put_loop (fuel : nat) (this : KeepClient) (hash : string)
  (expectedLength : Z) (sv : list string) (sched : nat -> nat)
  (st : placer) : run placed :=
  if 0 <? remaining_replicas st then
    match fuel with
    | O => OutOfFuel
    | S fuel' =>
        next ← pass this hash expectedLength sv sched st;
        match next with
        | inl st' => put_loop fuel' this hash expectedLength sv sched st'
        | inr p => Returns p
        end
    end
  else Returns {| replicas := Want_replicas this;
                  failure := None;
                  final := st |}.

Definition placer_init (this : KeepClient) : placer :=
  {| next_server := 0; active := 0;
     remaining_replicas := Want_replicas this;
     in_flight := []; received := [] |}.

(** Every pass of the outer loop receives the message of one server of
    [sv], so [len(sv)] passes and a last test are all it can make. *)
Definition putReplicas_run (this : KeepClient) (hash : string)
  (expectedLength : Z) (sched : nat -> nat) : run placed :=
  sv ← shuffledServiceRoots this hash;
  put_loop (S (length sv)) this hash expectedLength sv sched
    (placer_init this).

(** [putReplicas]: the pair [(replicas, err)]. *)
Definition putReplicas (this : KeepClient) (hash : string)
  (expectedLength : Z) (sched : nat -> nat) : run (Z * option error) :=
  p ← putReplicas_run this hash expectedLength sched;
  Returns (replicas p, failure p).

(** The states an execution of [putReplicas] over the probe sequence [sv]
    passes through: the initial one, the one after every start of an
    uploader, and the one after every message received and accounted for.
    The premises are the loop conditions under which the source gets to
    the statement. *)
Inductive visits (this : KeepClient) (hash : string) (expectedLength : Z)
  (sv : list string) : placer -> Prop :=
| visits_init : visits this hash expectedLength sv (placer_init this)
| visits_launch st host :
    visits this hash expectedLength sv st ->
    0 < remaining_replicas st ->
    active st < remaining_replicas st ->
    next_server st < len sv ->
    index sv (next_server st) = Returns host ->
    visits this hash expectedLength sv
      (launch (uploadToKeepServer this host hash expectedLength) st)
| visits_receive st choice status st' :
    visits this hash expectedLength sv st ->
    0 < remaining_replicas st ->
    remaining_replicas st <= active st
    \/ (len sv <= next_server st /\ active st <> 0) ->
    receive choice st = Returns (status, st') ->
    visits this hash expectedLength sv (account status st').

(** The replicas the received messages report stored: what the loop has
    subtracted from [remaining_replicas]. *)
Definition stored (log : list uploadStatus) : Z :=
  foldr (fun status acc =>
           if statusCode status =? 200
           then replicas_stored status + acc else acc) 0 log.

(** The state [for active < remaining_replicas] is left in. *)
Definition placer_of (s : started) : placer :=
  match s with Wait st => st | GiveUp st => st end.

(** The bookkeeping of [putReplicas]: [next_server] servers of [sv] have been
    started, [active] of them have not been heard of yet, and the others are
    the messages received. *)
Definition consistent (this : KeepClient) (hash : string)
  (expectedLength : Z) (sv : list string) (st : placer) : Prop :=
  0 <= next_server st <= len sv
  /\ active st = len (in_flight st)
  /\ in_flight st ++ received st ≡ₚ
       (fun host => uploadToKeepServer this host hash expectedLength)
         <$> take (Z.to_nat (next_server st)) sv.

(** The deficit is the requirement less what has been reported stored. *)
Definition balanced (this : KeepClient) (st : placer) : Prop :=
  remaining_replicas st = Want_replicas this - stored (received st).

(** A message whose count of stored replicas, if it reports success, is a
    count: an [int] that is not negative. *)
Definition plausible (status : uploadStatus) : Prop :=
  statusCode status = 200 -> 0 <= replicas_stored status <= max_int.

(** How [putReplicas] may return: with no error, the requirement, and no
    deficit left; or with [InsufficientReplicasError], the requirement less
    the deficit, every server of [sv] started and heard of, and a deficit
    left. *)
Definition settled (this : KeepClient) (sv : list string) (p : placed)
  : Prop :=
  match failure p with
  | None =>
      replicas p = Want_replicas this /\ remaining_replicas (final p) <= 0
  | Some e =>
      e = InsufficientReplicasError
      /\ replicas p = int (Want_replicas this - remaining_replicas (final p))
      /\ 0 < remaining_replicas (final p)
      /\ in_flight (final p) = []
      /\ next_server (final p) = len sv
  end.

(** A server that answers 200 and stores the one replica it is sent. *)
Definition healthy (this : KeepClient) (hash : string) (expectedLength : Z)
  (host : string) : bool :=
  let status := uploadToKeepServer this host hash expectedLength in
  (statusCode status =? 200) && (replicas_stored status =? 1).

(** A server whose upload fails. *)
Definition failing (this : KeepClient) (hash : string) (expectedLength : Z)
  (host : string) : bool :=
  negb (statusCode (uploadToKeepServer this host hash expectedLength) =? 200).

(** The healthy servers among [Service_roots]. *)
Definition healthy_backends (this : KeepClient) (hash : string)
  (expectedLength : Z) : Z :=
  len (List.filter (healthy this hash expectedLength) (Service_roots this)).

End keepclient.

(** ** [support.go]: finding the servers *)

Module discovery.
Import keepclient.

Record keepDisk : Type := {
  Hostname : string;
  Port : Z;
  SSL : bool;
  SvcType : string
}.

(** What [discoverKeepServers] reads beside the client: the environment of
    the process, and the list [json.NewDecoder(resp.Body).Decode] finds in
    the body of a response ([None] when it returns an error). *)
Record World : Type := {
  Getenv : string -> string;
  Decode : Response -> option (list keepDisk)
}.

(** The errors [discoverKeepServers] returns. *)
Inductive error : Type :=
| NewRequestFailed     (* the [err] of [http.NewRequest] *)
| DoFailed             (* the [err] of [this.Client.Do] *)
| DecodeFailed.        (* the [err] of [dec.Decode] *)

(** [http.NewRequest("GET", url, nil)], the headers added to it, and
    [this.Client.Do(req)]. *)
Definition get (this : KeepClient) (url : string)
  (header : list (string * string)) : error + Response :=
  if negb (NewRequest_ok (Client this) url) then inl NewRequestFailed
  else
    match Do (Client this)
            {| Method := "GET"; URL := url; ContentLength := 0;
               Header := header |} with
    | None => inl DoFailed
    | Some resp => inr resp
    end.

(** The requests of [discoverKeepServers] and the decoding of the reply:
    the list of accessible services, or the keep disks if that is not
    answered with 200. *)
Definition fetch (world : World) (this : KeepClient)
  : error + list keepDisk :=
  let authorization := ("Authorization", "OAuth2 " +:+ ApiToken this) in
  match get this
          ("https://" +:+ ApiServer this
           +:+ "/arvados/v1/keep_services/accessible?format=json")
          ([authorization]
           ++ (if External this then [("X-External-Client", "1")] else []))
  with
  | inl e => inl e
  | inr resp =>
      match (if negb (StatusCode resp =? 200)
             then get this
                    ("https://" +:+ ApiServer this +:+ "/arvados/v1/keep_disks")
                    [authorization]
             else inr resp)
      with
      | inl e => inl e
      | inr resp =>
          match Decode world resp with
          | None => inl DecodeFailed
          | Some items => inr items
          end
      end
  end.

(** [fmt.Sprintf("http%s://%s:%d", n, element.Hostname, element.Port)] *)
Definition service_url (element : keepDisk) : string :=
  "http" +:+ (if SSL element then "s" else "") +:+ "://"
  +:+ Hostname element +:+ ":" +:+ pretty (Port element).

(** The variables of [for _, element := range m.Items]. *)
Record scan : Type := {
  listed : gmap string bool;
  roots : list string;
  using_proxy : bool
}.

(** [listed[url]]: a missing key reads as [false]. *)
Definition is_listed (st : scan) (url : string) : bool :=
  default false (listed st !! url).

(** One pass through the body of the loop. *)
Definition scan_one (st : scan) (element : keepDisk) : scan :=
  let url := service_url element in
  let st' :=
    if negb (is_listed st url) then
      {| listed := <[url := true]> (listed st);
         roots := roots st ++ [url];
         using_proxy := using_proxy st |}
    else st in
  if String.eqb (SvcType element) "proxy" then
    {| listed := listed st'; roots := roots st'; using_proxy := true |}
  else st'.

Definition scan_items (using_proxy : bool) (items : list keepDisk) : scan :=
  foldl scan_one
    {| listed := ∅; roots := []; using_proxy := using_proxy |} items.

(** [sort.Strings]: the strings in increasing order of their bytes. *)
Definition sort_Strings (l : list string) : list string :=
  merge_sort String.le l.

(** [discoverKeepServers]: the client it leaves and the error it returns. *)
Definition discoverKeepServers (world : World) (this : KeepClient)
  : KeepClient * option error :=
  let prx := Getenv world "ARVADOS_KEEP_PROXY" in
  if negb (String.eqb prx "") then
    ({| ApiServer := ApiServer this; ApiToken := ApiToken this;
        Want_replicas := Want_replicas this;
        Using_proxy := true; External := External this;
        Service_roots := [prx]; Client := Client this |}, None)
  else
    match fetch world this with
    | inl e => (this, Some e)
    | inr items =>
        let st := scan_items (Using_proxy this) items in
        ({| ApiServer := ApiServer this; ApiToken := ApiToken this;
            Want_replicas := Want_replicas this;
            Using_proxy := using_proxy st; External := External this;
            Service_roots := sort_Strings (roots st);
            Client := Client this |}, None)
    end.

(** What the loop keeps: a URL is in the list once, and exactly if it is
    marked in [listed]. *)
Definition scanned (st : scan) : Prop :=
  NoDup (roots st) /\ forall url, is_listed st url = true <-> url ∈ roots st.

(** [element.SvcType == "proxy"] *)
Definition is_proxy (element : keepDisk) : bool :=
  String.eqb (SvcType element) "proxy".

End discovery.

(** ** The gateways of [keep_cache_test.go] *)

Module arvados.

Inductive error : Type :=
| BlockNotFound (locator : string)   (* "block not found: " + locator *)
| BlockNotFoundAnywhere              (* "block not found" *)
| EOF.                               (* io.EOF *)

(** The read side of the [KeepGateway] interface. A destination buffer is
    given by its length; a read returns the bytes it put there, whose
    number is the [n] of the source. *)
Class KeepGateway (G : Type) : Type := {
  ReadAt : G -> string -> Z -> Z -> run (list Byte.byte * option error);
  BlockRead : G -> string -> list Byte.byte * option error;
  LocalLocator : G -> string -> string * option error
}.

(** [copy(dst, src)] for a destination of length [dst]. *)
Definition copy (dst : Z) (src : list Byte.byte) : list Byte.byte :=
  take (Z.to_nat dst) src.

Record keepGatewayBlackHole : Type := BlackHole {}.

#[global] Instance keepGatewayBlackHole_gateway
  : KeepGateway keepGatewayBlackHole := {
  ReadAt _ _ _ _ := Returns ([], Some BlockNotFoundAnywhere);
  BlockRead _ _ := ([], Some BlockNotFoundAnywhere);
  LocalLocator _ locator := (locator, None)
}.

(** [map[string][]byte]; every slice stored in it comes from
    [bytes.Buffer.Bytes], which is [nil] when nothing was written, so an
    empty entry is a [nil] one. *)
Record keepGatewayMemoryBacked : Type := {
  data : gmap string (list Byte.byte)
}.

(** [k.data[locator]], with [None] for [nil]. *)
Definition block (k : keepGatewayMemoryBacked) (locator : string)
  : option (list Byte.byte) :=
  match data k !! locator with
  | Some (b :: bs) => Some (b :: bs)
  | _ => None
  end.

Definition keepGatewayMemoryBacked_ReadAt (k : keepGatewayMemoryBacked)
  (locator : string) (dst offset : Z)
  : run (list Byte.byte * option error) :=
  match block k locator with
  | None => Returns ([], Some (BlockNotFound locator))
  | Some data =>
      got ← (if offset <? len data
              then tail ← slice_from data offset; Returns (copy dst tail)
              else Returns []);
      if len got <? dst then Returns (got, Some EOF)
      else Returns (got, None)
  end.

Definition keepGatewayMemoryBacked_BlockRead (k : keepGatewayMemoryBacked)
  (locator : string) : list Byte.byte * option error :=
  match block k locator with
  | None => ([], Some (BlockNotFound locator))
  | Some data => (data, None)
  end.

#[global] Instance keepGatewayMemoryBacked_gateway
  : KeepGateway keepGatewayMemoryBacked := {
  ReadAt := keepGatewayMemoryBacked_ReadAt;
  BlockRead := keepGatewayMemoryBacked_BlockRead;
  LocalLocator _ locator := (locator, None)
}.

(** *** Writing to the gateways *)

Record BlockWriteOptions : Type := {
  Data : list Byte.byte;
  (** the bytes [opts.Reader] delivers until it ends; [None] for [nil] *)
  Reader : option (list Byte.byte)
}.

Record BlockWriteResponse : Type := {
  Locator : string;
  Replicas : Z
}.

(** One digit of the verb [%x]. *)
Definition hex_digit (n : N) : ascii :=
  ascii_of_N (if (n <? 10)%N then 48 + n else 87 + n).

(** [fmt.Sprintf("%x", sum)] for a byte slice: two digits a byte. *)
Fixpoint hex (sum : list Byte.byte) : string :=
  match sum with
  | [] => EmptyString
  | b :: rest =>
      let n := Byte.to_N b in
      String (hex_digit (n / 16)) (String (hex_digit (n mod 16)) (hex rest))
  end.

(** The bytes a write takes in: [opts.Data] if there is no reader, what
    the reader delivers otherwise. *)
Definition content (opts : BlockWriteOptions) : list Byte.byte :=
  match Reader opts with
  | None => Data opts
  | Some stream => stream
  end.

Section writing.
(** [md5.New()], [h.Write] and [h.Sum(nil)] of [crypto/md5]: the digest of
    the bytes written. *)
Variable md5 : list Byte.byte -> list Byte.byte.

(** [fmt.Sprintf("%x+%d", h.Sum(nil), size)] *)
Definition locator_of (data : list Byte.byte) : string :=
  hex (md5 data) +:+ "+" +:+ pretty (len data).

Definition keepGatewayBlackHole_BlockWrite (opts : BlockWriteOptions)
  : BlockWriteResponse * option error :=
  ({| Locator := locator_of (content opts); Replicas := 1 |}, None).

(** The gateway the write leaves, and what it returns. *)
Definition keepGatewayMemoryBacked_BlockWrite (k : keepGatewayMemoryBacked)
  (opts : BlockWriteOptions)
  : keepGatewayMemoryBacked * (BlockWriteResponse * option error) :=
  let locator := locator_of (content opts) in
  ({| data := <[locator := content opts]> (data k) |},
   ({| Locator := locator; Replicas := 1 |}, None)).
End writing.

(** *** The disk cache *)

(** Modelled from the spec: the cache file of a locator as a read finds
    it. The file of [DiskCache] is not among the sources; the design
    document names the local failures: the file is absent (no entry), too
    short, or cannot be read, whatever the cause. *)
Inductive cachefile : Type :=
| Unreadable
| Contents (bs : list Byte.byte).

(** Modelled from the spec: the attempt of [DiskCache.ReadAt] (not among
    the sources) to satisfy a request of [dst] bytes at [offset] from the
    local file; [None] is a local failure. *)
Definition local_ReadAt (dir : gmap string cachefile) (locator : string)
  (dst offset : nat) : option (list Byte.byte) :=
  match dir !! locator with
  | None => None
  | Some Unreadable => None
  | Some (Contents bs) =>
      if (offset + dst <=? length bs)%nat
      then Some (take dst (drop offset bs))
      else None
  end.

(** Modelled from the spec: what a read of [DiskCache] (not among the
    sources) gives back: the bytes, the error, and the cache directory it
    leaves. *)
Record read_result : Type := {
  got : list Byte.byte;
  err : option error;
  dir_after : gmap string cachefile
}.

(** Modelled from the spec: the read path of [DiskCache.ReadAt], which is
    not among the sources (only its tests are). The request is served from
    the local file; on a local failure it falls through to the gateway,
    the fetched block replaces the cache file, and the requested range is
    served from the fetch; a failure of the gateway is returned. *)
Definition DiskCache_ReadAt {G} `{KeepGateway G} (gateway : G)
  (dir : gmap string cachefile) (locator : string) (dst offset : nat)
  : read_result :=
  match local_ReadAt dir locator dst offset with
  | Some bs => {| got := bs; err := None; dir_after := dir |}
  | None =>
      match BlockRead gateway locator with
      | (_, Some e) => {| got := []; err := Some e; dir_after := dir |}
      | (fetched, None) =>
          {| got := take dst (drop offset fetched);
             err := None;
             dir_after := <[locator := Contents fetched]> dir |}
      end
  end.

End arvados.

(** ** Clients and servers to run the code on *)

Module fixtures.
Import keepclient.

(** The digest of ["foo"], as in the tests of the client. *)
Definition foo : string := "acbd18db4cc2f85cedef654fccc4a4d8".

(** A network on which no server answers. *)
Definition silent : HTTPClient :=
  {| NewRequest_ok := fun _ => true; Do := fun _ => None |}.

Definition client (want : Z) (roots : list string) (net : HTTPClient)
  : KeepClient :=
  {| ApiServer := "zzzzz.arvadosapi.com"; ApiToken := "abc123";
     Want_replicas := want; Using_proxy := false; External := false;
     Service_roots := roots; Client := net |}.

Definition three_roots : list string :=
  ["http://keep0:25107"; "http://keep1:25107"; "http://keep2:25107"].

Definition five_roots : list string :=
  ["http://keep0:25107"; "http://keep1:25107"; "http://keep2:25107";
   "http://keep3:25107"; "http://keep4:25107"].

(** A network of three servers: [keep0] stores the block, [keep1] is a proxy
    that reports three replicas stored, [keep2] is out of service; nothing
    else answers. *)
Definition answering : HTTPClient :=
  {| NewRequest_ok := fun _ => true;
     Do := fun req =>
       if String.prefix "http://keep0" (URL req) then
         Some {| StatusCode := 200; Status := "200 OK";
                 X_Keep_Replicas_Stored := None |}
       else if String.prefix "http://keep1" (URL req) then
         Some {| StatusCode := 200; Status := "200 OK";
                 X_Keep_Replicas_Stored := Some 3 |}
       else if String.prefix "http://keep2" (URL req) then
         Some {| StatusCode := 503; Status := "503 Service Unavailable";
                 X_Keep_Replicas_Stored := None |}
       else None |}.

(** Messages are received in the order the uploaders were started. *)
Definition in_order : nat -> nat := fun _ => 0%nat.

(** A network on which every server whose name starts with [keep0] or
    [keep1] stores the block, and the others refuse. *)
Definition two_healthy : HTTPClient :=
  {| NewRequest_ok := fun _ => true;
     Do := fun req =>
       if String.prefix "http://keep0" (URL req)
          || String.prefix "http://keep1" (URL req) then
         Some {| StatusCode := 200; Status := "200 OK";
                 X_Keep_Replicas_Stored := None |}
       else
         Some {| StatusCode := 500; Status := "500 Internal Server Error";
                 X_Keep_Replicas_Stored := None |} |}.

(** A block and its locator. *)
Definition block8 : list Byte.byte := repeat Byte.x2a 8.
Definition loc8 : string := "9a0364b9e99bb480dd25e1f0284c8555+8".

(** The gateway of the tests, holding the block. *)
Definition backend : arvados.keepGatewayMemoryBacked :=
  {| arvados.data := {[ loc8 := block8 ]} |}.

(** A cache directory in which the file of the block has been cut down to
    three bytes. *)
Definition mangled : gmap string arvados.cachefile :=
  {[ loc8 := arvados.Contents (take 3 block8) ]}.

(** An API server that lists four services, one of them twice and one a
    proxy, in no particular order. *)
Definition listing : list discovery.keepDisk :=
  [ {| discovery.Hostname := "keep1"; discovery.Port := 25107;
       discovery.SSL := false; discovery.SvcType := "disk" |};
    {| discovery.Hostname := "keep0"; discovery.Port := 25107;
       discovery.SSL := false; discovery.SvcType := "disk" |};
    {| discovery.Hostname := "keep1"; discovery.Port := 25107;
       discovery.SSL := false; discovery.SvcType := "disk" |};
    {| discovery.Hostname := "keepproxy"; discovery.Port := 443;
       discovery.SSL := true; discovery.SvcType := "proxy" |} ].

Definition api : HTTPClient :=
  {| NewRequest_ok := fun _ => true;
     Do := fun req =>
       if String.eqb (URL req)
            "https://zzzzz.arvadosapi.com/arvados/v1/keep_services/accessible?format=json"
       then Some {| StatusCode := 200; Status := "200 OK";
                    X_Keep_Replicas_Stored := None |}
       else None |}.

(** A network on which every server answers 200 with
    [X-Keep-Replicas-Stored: -9223372036854775807]. *)
Definition overdrawn : HTTPClient :=
  {| NewRequest_ok := fun _ => true;
     Do := fun _ =>
       Some {| StatusCode := 200; Status := "200 OK";
               X_Keep_Replicas_Stored := Some (-9223372036854775807) |} |}.

(** A client for which [http.NewRequest] fails. *)
Definition unbuildable : HTTPClient :=
  {| NewRequest_ok := fun _ => false; Do := fun _ => None |}.

(** A network on which every server stores the block. *)
Definition all_healthy : HTTPClient :=
  {| NewRequest_ok := fun _ => true;
     Do := fun _ =>
       Some {| StatusCode := 200; Status := "200 OK";
               X_Keep_Replicas_Stored := None |} |}.

(** A stand-in for MD5 that is good enough to tell the blocks of the
    examples apart: the first byte, sixteen times. *)
Definition first16 (data : list Byte.byte) : list Byte.byte :=
  repeat (default Byte.x00 (head data)) 16.

(** A process without [ARVADOS_KEEP_PROXY], reading [items] from every
    reply. *)
Definition plain (items : list discovery.keepDisk) : discovery.World :=
  {| discovery.Getenv := fun _ => "";
     discovery.Decode := fun _ => Some items |}.

(** A process with [ARVADOS_KEEP_PROXY] set. *)
Definition proxied : discovery.World :=
  {| discovery.Getenv := fun name =>
       if String.eqb name "ARVADOS_KEEP_PROXY"
       then "http://keepproxy:25107" else "";
     discovery.Decode := fun _ => None |}.

End fixtures.

(** * Properties *)

Import keepclient fixtures.

(** ** Running the embedded code *)

Section run_facts.
Context {A B : Type}.

Lemma bind_Returns (a : A) (k : A -> run B) : (Returns a ≫= k) = k a.
Proof. reflexivity. Qed.

Lemma bind_Returns_inv (m : run A) (k : A -> run B) (b : B) :
  m ≫= k = Returns b -> exists a, m = Returns a /\ k a = Returns b.
Proof. destruct m as [a| |]; simpl; intros E; try discriminate; eauto. Qed.

Lemma bind_Panics_inv (m : run A) (k : A -> run B) (why : panic) :
  m ≫= k = Panics why ->
  m = Panics why \/ exists a, m = Returns a /\ k a = Panics why.
Proof.
  destruct m as [a| |]; simpl; intros E; try discriminate; [eauto|].
  left. congruence.
Qed.
End run_facts.

(** Splits a hypothesis [m ≫= k = Returns b] into its two halves. *)
Ltac run_inv H :=
  let a := fresh "r" in
  let Ha := fresh "E" in
  apply bind_Returns_inv in H as (a & Ha & H).

Section slices.
Context {A : Type}.
Implicit Types s : list A.

Lemma len_nonneg s : 0 <= len s.
Proof. unfold len. lia. Qed.

Lemma len_app s t : len (s ++ t) = len s + len t.
Proof. unfold len. rewrite length_app. lia. Qed.

Lemma slice_Returns s lo hi :
  0 <= lo <= hi -> hi <= len s ->
  slice s lo hi = Returns (take (Z.to_nat (hi - lo)) (drop (Z.to_nat lo) s)).
Proof.
  intros [H0 H1] H2. unfold slice.
  rewrite (proj2 (Z.leb_le _ _) H0), (proj2 (Z.leb_le _ _) H1),
    (proj2 (Z.leb_le _ _) H2). reflexivity.
Qed.

Lemma slice_inv s lo hi t :
  slice s lo hi = Returns t ->
  0 <= lo <= hi /\ hi <= len s
  /\ t = take (Z.to_nat (hi - lo)) (drop (Z.to_nat lo) s).
Proof.
  unfold slice. intros E.
  destruct (0 <=? lo) eqn:H0; simpl in E; [|discriminate].
  destruct (lo <=? hi) eqn:H1; simpl in E; [|discriminate].
  destruct (hi <=? len s) eqn:H2; simpl in E; [|discriminate].
  apply Z.leb_le in H0, H1, H2. injection E as <-. auto.
Qed.

Lemma slice_Panics s lo hi :
  len s < hi -> slice s lo hi = Panics SliceBounds.
Proof.
  intros H. unfold slice. apply Z.leb_gt in H. rewrite H.
  rewrite andb_false_r. reflexivity.
Qed.

Lemma slice_from_Returns s lo :
  0 <= lo <= len s -> slice_from s lo = Returns (drop (Z.to_nat lo) s).
Proof.
  intros H. unfold slice_from. rewrite slice_Returns by lia.
  f_equal. apply take_ge. rewrite length_drop. unfold len. lia.
Qed.

Lemma slice_from_inv s lo t :
  slice_from s lo = Returns t ->
  0 <= lo <= len s /\ t = drop (Z.to_nat lo) s.
Proof.
  intros E. assert (E' := E). apply slice_inv in E' as (H1 & H2 & _).
  rewrite slice_from_Returns in E by lia. injection E as <-. split; [lia|done].
Qed.

Lemma slice_to_Returns s hi :
  0 <= hi <= len s -> slice_to s hi = Returns (take (Z.to_nat hi) s).
Proof.
  intros H. unfold slice_to. rewrite slice_Returns by lia.
  rewrite Z.sub_0_r. reflexivity.
Qed.

Lemma index_Returns s i :
  0 <= i < len s -> exists a, index s i = Returns a /\ s !! Z.to_nat i = Some a.
Proof.
  intros [H0 H1]. unfold index.
  rewrite (proj2 (Z.leb_le _ _) H0), (proj2 (Z.ltb_lt _ _) H1). simpl.
  destruct (lookup_lt_is_Some_2 s (Z.to_nat i)) as [a Ha].
  { unfold len in H1. lia. }
  rewrite Ha. eauto.
Qed.

Lemma index_inv s i a :
  index s i = Returns a -> 0 <= i < len s /\ s !! Z.to_nat i = Some a.
Proof.
  unfold index. intros E.
  destruct (0 <=? i) eqn:H0; simpl in E; [|discriminate].
  destruct (i <? len s) eqn:H1; simpl in E; [|discriminate].
  apply Z.leb_le in H0. apply Z.ltb_lt in H1.
  destruct (s !! Z.to_nat i) eqn:El; [|discriminate].
  injection E as <-. auto.
Qed.
End slices.

Lemma len_bytes (s : string) : len (bytes s) = Z.of_nat (String.length s).
Proof.
  unfold len, bytes. f_equal. induction s as [|c s IH]; simpl; [done|].
  by rewrite IH.
Qed.

(** ** The probe sequence *)

Section probe_sequence.
Implicit Types (hash seed : list ascii) (st : shuffle).

Lemma refill_Returns hash seed pseq :
  4 <= len hash ->
  refill hash seed pseq =
    Returns (if len seed <? 8
             then (if len pseq <? len hash / 4
                   then drop (Z.to_nat (len hash - 4)) hash
                   else seed) ++ hash
             else seed).
Proof.
  intros Hh. unfold refill. destruct (len seed <? 8); [|done].
  destruct (len pseq <? len hash / 4); [|done].
  rewrite slice_from_Returns by lia. reflexivity.
Qed.

Lemma refill_long hash seed pseq :
  8 <= len hash ->
  exists s, refill hash seed pseq = Returns s /\ 8 <= len s.
Proof.
  intros Hh. rewrite refill_Returns by lia. eexists; split; [done|].
  destruct (len seed <? 8) eqn:E; [|by apply Z.ltb_ge in E].
  rewrite len_app. pose proof (len_nonneg seed).
  destruct (len pseq <? len hash / 4); [|lia].
  pose proof (len_nonneg (drop (Z.to_nat (len hash - 4)) hash)). lia.
Qed.

(** What one selection does: it reads the refilled seed, takes a server
    out of the pool and drops the eight digits it has used. *)
Lemma select_inv hash st st' :
  select hash st = Returns st' ->
  exists seed1 i server,
    refill hash (seed st) (pseq st) = Returns seed1
    /\ 8 <= len seed1
    /\ seed st' = drop 8 seed1
    /\ pool st !! i = Some server
    /\ pseq st' = pseq st ++ [server]
    /\ pool st' = take i (pool st) ++ drop (S i) (pool st).
Proof.
  unfold select. intros E.
  run_inv E. run_inv E. run_inv E. run_inv E. run_inv E. run_inv E.
  run_inv E. injection E as <-. simpl.
  apply slice_inv in E1 as (_ & H8 & _).
  apply index_inv in E3 as [Hi Hs].
  unfold slice_to in E4. apply slice_inv in E4 as (_ & _ & ->).
  apply slice_from_inv in E5 as (_ & ->).
  apply slice_from_inv in E6 as (_ & ->).
  exists r, (Z.to_nat (Z.of_N r1)), r2. repeat split; try done.
  rewrite Z.sub_0_r, drop_0. f_equal. f_equal. lia.
Qed.

Lemma select_Returns_seed hash st s :
  refill hash (seed st) (pseq st) = Returns s -> 8 <= len s ->
  pool st <> [] -> exists st', select hash st = Returns st'.
Proof.
  intros Hr Hs Hp. unfold select. rewrite Hr.
  rewrite ?bind_Returns, slice_Returns by lia. rewrite ?bind_Returns.
  set (probe := (ParseUint_16_32 _).1).
  assert (0 < len (pool st)) as Hl.
  { unfold len. destruct (pool st); [done|]. simpl. lia. }
  unfold umod. destruct (N.eqb_spec (Z.to_N (len (pool st))) 0) as [E|E];
    [lia|]. rewrite ?bind_Returns.
  set (p := (probe `mod` Z.to_N (len (pool st)))%N).
  assert (0 <= Z.of_N p < len (pool st)) as Hp'.
  { pose proof (N.mod_upper_bound probe _ E). lia. }
  destruct (index_Returns (pool st) (Z.of_N p) Hp') as (a & -> & _).
  rewrite ?bind_Returns, slice_to_Returns by lia. rewrite ?bind_Returns.
  rewrite slice_from_Returns by lia. rewrite ?bind_Returns.
  rewrite slice_from_Returns by lia. rewrite ?bind_Returns. eauto.
Qed.

Lemma select_Returns hash st :
  8 <= len hash -> pool st <> [] -> exists st', select hash st = Returns st'.
Proof.
  intros Hh Hp.
  destruct (refill_long hash (seed st) (pseq st) Hh) as (s & Hr & Hs).
  by apply (select_Returns_seed hash st s).
Qed.

Lemma select_perm hash st st' :
  select hash st = Returns st' ->
  pseq st' ++ pool st' ≡ₚ pseq st ++ pool st
  /\ length (pool st) = S (length (pool st')).
Proof.
  intros E.
  apply select_inv in E as (_ & i & server & _ & _ & _ & Hi & -> & ->).
  pose proof (take_drop_middle _ _ _ Hi) as Hm. split.
  - rewrite <- Hm at 3. rewrite <- !app_assoc. apply Permutation_app_head.
    simpl. apply Permutation_middle.
  - rewrite <- Hm at 1. rewrite !length_app. simpl. lia.
Qed.

Lemma shuffle_loop_Returns fuel hash st :
  8 <= len hash -> (length (pool st) <= fuel)%nat ->
  exists out, shuffle_loop fuel hash st = Returns out
              /\ out ≡ₚ pseq st ++ pool st.
Proof.
  intros Hh. revert st. induction fuel as [|fuel IH]; intros st Hf.
  - destruct (pool st) eqn:Ep; [|simpl in Hf; lia].
    exists (pseq st). simpl. rewrite Ep, app_nil_r. done.
  - simpl. destruct (pool st) as [|h t] eqn:Ep.
    { exists (pseq st). rewrite app_nil_r. done. }
    destruct (select_Returns hash st Hh) as [st' E]; [by rewrite Ep|].
    rewrite E, ?bind_Returns.
    apply select_perm in E as [Hperm Hlen]. rewrite Ep in Hperm, Hlen.
    destruct (IH st') as (out & -> & Hout).
    { simpl in Hf, Hlen. lia. }
    exists out. split; [done|]. by rewrite Hout, Hperm.
Qed.

Lemma shuffle_loop_S fuel hash st :
  pool st <> [] ->
  shuffle_loop (S fuel) hash st = select hash st ≫= shuffle_loop fuel hash.
Proof. intros Hp. simpl. by destruct (pool st). Qed.

(** The budget is never what stops the loop. *)
Lemma select_fuel hash st : select hash st <> OutOfFuel.
Proof.
  unfold select, refill, slice_from, slice_to, slice, umod, index.
  repeat (case_match; simpl; try discriminate).
Qed.

Lemma shuffle_loop_fuel fuel hash st :
  (length (pool st) <= fuel)%nat -> shuffle_loop fuel hash st <> OutOfFuel.
Proof.
  revert st. induction fuel as [|fuel IH]; intros st Hf; simpl.
  - destruct (pool st); [discriminate|simpl in Hf; lia].
  - destruct (pool st) as [|h t] eqn:Ep; [discriminate|].
    destruct (select hash st) as [st'| |] eqn:E; simpl; [|discriminate|].
    + apply IH. apply select_perm in E as [_ Hl]. rewrite Ep in Hl.
      simpl in Hf, Hl. lia.
    + by apply select_fuel in E.
Qed.

(** A hash of four digits feeds one selection and no more. *)
Lemma select_starved hash st :
  len hash = 4 -> seed st = [] -> length (pseq st) = 1%nat ->
  select hash st = Panics SliceBounds.
Proof.
  intros Hh Hs Hq. unfold select. rewrite refill_Returns by lia.
  rewrite Hs. replace (len (pseq st)) with 1 by (unfold len; lia).
  rewrite Hh. replace (len (@nil ascii)) with 0 by done.
  change (0 <? 8) with true. change (1 <? 4 / 4) with false. cbv iota.
  rewrite app_nil_l, ?bind_Returns, slice_Panics by lia. reflexivity.
Qed.

Lemma shuffle_loop_short fuel hash st a b rest :
  len hash = 4 -> seed st = hash -> pseq st = [] -> pool st = a :: b :: rest ->
  shuffle_loop (S (S fuel)) hash st = Panics SliceBounds.
Proof.
  intros Hh Hs Hq Hp.
  assert (refill hash (seed st) (pseq st) = Returns (hash ++ hash)) as R1.
  { rewrite refill_Returns by lia. rewrite Hs, Hq, Hh.
    replace (len (@nil string)) with 0 by done. simpl.
    by rewrite drop_0. }
  assert (len (hash ++ hash) = 8) as L8 by (rewrite len_app; lia).
  destruct (select_Returns_seed hash st _ R1) as [st' E];
    [lia|by rewrite Hp|].
  rewrite shuffle_loop_S, E, bind_Returns by (by rewrite Hp).
  assert (pool st' <> []) as Hne.
  { apply select_perm in E as [_ Hlen]. intros E0.
    rewrite Hp, E0 in Hlen. discriminate. }
  apply select_inv in E
    as (s1 & i & server & R1' & _ & Hs' & Hi & Hq' & Hp').
  rewrite R1 in R1'. injection R1' as <-.
  rewrite shuffle_loop_S by done. rewrite select_starved; [done|done| |].
  - rewrite Hs'. apply drop_ge. unfold len in L8. lia.
  - rewrite Hq', Hq. done.
Qed.
End probe_sequence.

(** ** Refilling the seed *)

Section refilling.
Variables (hash : list ascii) (k : nat).
Hypothesis hash_length : length hash = (8 * k)%nat.
Hypothesis hash_nonempty : (1 <= k)%nat.

Lemma tail4_length : length (tail4 hash) = 4%nat.
Proof. unfold tail4, len. rewrite length_drop. lia. Qed.

Lemma len_hash_div4 : len hash / 4 = 2 * Z.of_nat k.
Proof.
  unfold len. rewrite hash_length.
  replace (Z.of_nat (8 * k)) with (2 * Z.of_nat k * 4) by lia.
  apply Z.div_mul. lia.
Qed.

Lemma refill_aligned st :
  aligned hash st ->
  refill hash (seed st) (pseq st)
  = Returns (if len (seed st) <? 8 then refill_documented hash else seed st).
Proof.
  intros Ha. rewrite refill_Returns by (unfold len; lia).
  destruct (len (seed st) <? 8) eqn:E8; [|done]. apply Z.ltb_lt in E8.
  f_equal. unfold refill_documented. f_equal. rewrite len_hash_div4.
  destruct Ha as [(j & Hs & Hq & Hj)|(j & Hs & Hj)].
  - assert (j = k) as ->.
    { rewrite Hs in E8. unfold len in E8. rewrite length_drop in E8. lia. }
    replace (len (pseq st) <? 2 * Z.of_nat k) with true; [done|].
    symmetry. apply Z.ltb_lt. unfold len. lia.
  - assert (j = k) as ->.
    { rewrite Hs in E8. unfold len in E8.
      rewrite length_drop, length_app, tail4_length in E8. lia. }
    assert (seed st = tail4 hash) as ->.
    { rewrite Hs, drop_app_ge by (rewrite tail4_length; lia).
      rewrite tail4_length. unfold tail4, len. f_equal. lia. }
    by destruct (_ <? _).
Qed.

Lemma init_aligned this (h : string) :
  bytes h = hash -> aligned hash (shuffle_init this h).
Proof.
  intros <-. left. exists 0%nat. simpl. split; [done|]. split; [done|lia].
Qed.

Lemma select_aligned st st' :
  aligned hash st -> select hash st = Returns st' -> aligned hash st'.
Proof.
  intros Ha E.
  apply select_inv in E as (s1 & i & server & R & H8 & Hs' & _ & Hq' & _).
  rewrite (refill_aligned st Ha) in R. injection R as <-.
  destruct (len (seed st) <? 8) eqn:E8.
  - right. exists 1%nat. split; [done|lia].
  - apply Z.ltb_ge in E8. unfold len in E8.
    destruct Ha as [(j & Hs & Hq & Hj)|(j & Hs & Hj)].
    + left. exists (S j). rewrite Hs, length_drop in E8.
      split; [|split].
      * rewrite Hs', Hs, drop_drop. f_equal. lia.
      * rewrite Hq', length_app. simpl. lia.
      * lia.
    + right. exists (S j).
      rewrite Hs, length_drop, length_app, tail4_length in E8. split.
      * rewrite Hs', Hs, drop_drop. f_equal. lia.
      * lia.
Qed.

Lemma selecting_aligned this (h : string) st :
  bytes h = hash -> selecting this h st -> aligned hash st.
Proof.
  intros Hh Hsel. induction Hsel as [|st st' _ IH _ E].
  - by apply init_aligned.
  - rewrite Hh in E. by apply (select_aligned st).
Qed.
End refilling.

Lemma select_n_selecting n this (h : string) st st' :
  selecting this h st -> select_n n (bytes h) st = Returns st' ->
  selecting this h st'.
Proof.
  revert st. induction n as [|n IH]; intros st Hsel E; simpl in E.
  - by injection E as <-.
  - destruct (pool st) eqn:Ep; [by injection E as <-|].
    run_inv E. apply (IH r); [|done].
    apply (selecting_step this h st); [done|by rewrite Ep|done].
Qed.

(** C3 (as stated: every refill is the trailing four digits and the digest).
    With a digest of nine digits and three backends, the third selection
    finds five digits left and fewer than eight, two servers chosen, and
    [len(hash)/4 = 2]: the source keeps the five digits and appends the
    digest, fourteen digits where the rule gives thirteen. *)
Lemma refill_rule_counterexample :
  exists st,
    selecting (client 2 three_roots silent) "123456789" st
    /\ pool st <> [] /\ len (seed st) < 8
    /\ refill (bytes "123456789") (seed st) (pseq st)
       = Returns (bytes "56789123456789")
    /\ refill_documented (bytes "123456789") = bytes "6789123456789"
    /\ refill (bytes "123456789") (seed st) (pseq st)
       <> Returns (refill_documented (bytes "123456789")).
Proof.
  exists {| seed := bytes "56789";
            pool := ["http://keep2:25107"];
            pseq := ["http://keep0:25107"; "http://keep1:25107"] |}.
  split.
  { apply (select_n_selecting 2 _ _ _ _ (selecting_init _ _)). reflexivity. }
  split; [discriminate|]. split; [reflexivity|]. split; [reflexivity|].
  split; [reflexivity|]. vm_compute. discriminate.
Qed.

(** C3 (amended). Whenever fewer than eight digits of the seed are left and
    the pool is not empty, the seed is refilled with the digest appended to
    the digest's trailing four digits if fewer than [len(hash)/4] servers
    have been chosen, and to the digits left over otherwise. For a digest
    whose length is a multiple of eight, as the 32 digits of MD5, both are
    the trailing four digits followed by the digest, at every refill. *)
Theorem refill_rule (this : KeepClient) (hash : string) (st : shuffle) :
  (8 <= String.length hash)%nat ->
  selecting this hash st -> pool st <> [] -> len (seed st) < 8 ->
  refill (bytes hash) (seed st) (pseq st)
  = Returns ((if len (pseq st) <? len (bytes hash) / 4
              then tail4 (bytes hash) else seed st) ++ bytes hash)
  /\ ((String.length hash `mod` 8 = 0)%nat ->
      refill (bytes hash) (seed st) (pseq st)
      = Returns (refill_documented (bytes hash))).
Proof.
  intros Hh Hsel Hp H8. pose proof (len_bytes hash) as Hl. split.
  - rewrite refill_Returns by lia.
    apply Z.ltb_lt in H8. rewrite H8. reflexivity.
  - intros Hm. apply Nat.Div0.div_exact in Hm.
    set (k := (String.length hash / 8)%nat) in *.
    assert (length (bytes hash) = (8 * k)%nat) as Hk.
    { unfold len in Hl. lia. }
    assert (1 <= k)%nat as Hk1 by lia.
    rewrite (refill_aligned (bytes hash) k Hk Hk1)
      by (by apply (selecting_aligned _ k Hk Hk1 this hash)).
    apply Z.ltb_lt in H8. rewrite H8. reflexivity.
Qed.

Lemma refill_rule_witness :
  let st := {| seed := [];
               pool := ["http://keep2:25107"];
               pseq := ["http://keep4:25107"; "http://keep0:25107";
                        "http://keep3:25107"; "http://keep1:25107"] |} in
  refill (bytes foo) (seed st) (pseq st)
  = Returns ((if len (pseq st) <? len (bytes foo) / 4
              then tail4 (bytes foo) else seed st) ++ bytes foo)
  /\ refill (bytes foo) (seed st) (pseq st)
     = Returns (refill_documented (bytes foo)).
Proof.
  intros st.
  destruct (refill_rule (client 2 five_roots silent) foo st) as [H1 H2].
  - vm_compute. lia.
  - apply (select_n_selecting 4 _ _ _ _ (selecting_init _ _)). reflexivity.
  - discriminate.
  - reflexivity.
  - split; [exact H1|]. apply H2. reflexivity.
Defined.

(** C1. The probe sequence is a function of the hash and of the list of
    service roots alone: two clients that agree on [Service_roots], whatever
    else they hold (tokens, replication level, network), compute the same
    sequence for the same hash, and so does one client asked twice. *)
Theorem shuffledServiceRoots_deterministic (this that : KeepClient)
  (hash : string) :
  Service_roots this = Service_roots that ->
  shuffledServiceRoots this hash = shuffledServiceRoots that hash.
Proof.
  intros E. unfold shuffledServiceRoots, shuffle_init. rewrite E. reflexivity.
Qed.

Lemma shuffledServiceRoots_deterministic_witness :
  shuffledServiceRoots (client 2 three_roots silent) foo
  = shuffledServiceRoots
      {| ApiServer := "other"; ApiToken := "xyz"; Want_replicas := 5;
         Using_proxy := true; External := true;
         Service_roots := three_roots; Client := silent |} foo.
Proof. apply shuffledServiceRoots_deterministic. reflexivity. Defined.

(** C2. For a hash of at least eight digits the probe sequence is returned,
    has as many entries as [Service_roots], and is a permutation of it:
    every backend is visited exactly once. *)
Theorem shuffledServiceRoots_permutation (this : KeepClient) (hash : string) :
  (8 <= String.length hash)%nat ->
  exists pseq,
    shuffledServiceRoots this hash = Returns pseq
    /\ length pseq = length (Service_roots this)
    /\ pseq ≡ₚ Service_roots this.
Proof.
  intros Hh. unfold shuffledServiceRoots.
  destruct (shuffle_loop_Returns (length (Service_roots this)) (bytes hash)
              (shuffle_init this hash)) as (out & E & Hperm).
  - rewrite len_bytes. lia.
  - done.
  - exists out. simpl in Hperm. split; [done|].
    split; [by rewrite Hperm|done].
Qed.

Lemma shuffledServiceRoots_permutation_witness :
  exists pseq,
    shuffledServiceRoots (client 2 three_roots silent) foo = Returns pseq
    /\ length pseq = 3%nat
    /\ pseq ≡ₚ three_roots.
Proof.
  apply (shuffledServiceRoots_permutation (client 2 three_roots silent) foo).
  vm_compute. lia.
Defined.

(** C9. For a hash of at least eight digits [shuffledServiceRoots] returns:
    no slice expression of it goes out of range. A shorter hash does not give
    that: with four digits and two or more backends the second selection
    slices [seed[0:8]] out of a seed of four digits, which panics. *)
Theorem shuffledServiceRoots_total (this : KeepClient) (hash : string) :
  ((8 <= String.length hash)%nat ->
   exists pseq, shuffledServiceRoots this hash = Returns pseq)
  /\ (String.length hash = 4%nat ->
      (2 <= length (Service_roots this))%nat ->
      shuffledServiceRoots this hash = Panics SliceBounds).
Proof.
  split.
  - intros Hh. unfold shuffledServiceRoots.
    destruct (shuffle_loop_Returns (length (Service_roots this)) (bytes hash)
                (shuffle_init this hash)) as (out & E & _); eauto.
    rewrite len_bytes. lia.
  - intros Hh Hn. unfold shuffledServiceRoots.
    destruct (Service_roots this) as [|a [|b rest]] eqn:Er;
      [simpl in Hn; lia|simpl in Hn; lia|].
    simpl length. eapply shuffle_loop_short; [|done|done|exact Er].
    rewrite len_bytes. lia.
Qed.

Lemma shuffledServiceRoots_total_witness :
  (exists pseq,
     shuffledServiceRoots (client 2 three_roots silent) foo = Returns pseq)
  /\ shuffledServiceRoots (client 2 three_roots silent) "abcd"
     = Panics SliceBounds.
Proof.
  split.
  - apply (shuffledServiceRoots_total (client 2 three_roots silent) foo).
    vm_compute. lia.
  - apply (shuffledServiceRoots_total (client 2 three_roots silent) "abcd").
    + reflexivity.
    + vm_compute. lia.
Defined.

(** ** Placing replicas *)

Section stored_facts.
Implicit Types log : list uploadStatus.

Lemma stored_cons status log :
  stored (status :: log)
  = if statusCode status =? 200
    then replicas_stored status + stored log else stored log.
Proof. reflexivity. Qed.

Lemma stored_app log1 log2 : stored (log1 ++ log2) = stored log1 + stored log2.
Proof.
  induction log1 as [|status log1 IH]; simpl; [done|].
  rewrite IH. destruct (statusCode status =? 200); lia.
Qed.

Lemma stored_perm log1 log2 : log1 ≡ₚ log2 -> stored log1 = stored log2.
Proof.
  induction 1 as [|x l l' _ IH|x y l|l l' l'' _ IH1 _ IH2]; simpl.
  - done.
  - by rewrite IH.
  - destruct (statusCode x =? 200), (statusCode y =? 200); lia.
  - congruence.
Qed.

#[global] Instance stored_Proper : Proper ((≡ₚ) ==> (=)) stored.
Proof. intros log1 log2. apply stored_perm. Qed.

Lemma stored_nonneg log :
  Forall (fun status => statusCode status = 200 -> 0 <= replicas_stored status)
    log ->
  0 <= stored log.
Proof.
  induction 1 as [|status log H _ IH]; simpl; [done|].
  destruct (Z.eqb_spec (statusCode status) 200) as [E|E]; [|done].
  specialize (H E). lia.
Qed.
End stored_facts.

Lemma int_id z : is_int z -> int z = z.
Proof.
  unfold is_int, int, min_int, max_int. intros H.
  rewrite Z.mod_small; lia.
Qed.

Lemma int_is_int z : is_int (int z).
Proof.
  unfold is_int, int, min_int, max_int.
  change (2 ^ 63) with 9223372036854775808.
  change (2 ^ 64) with 18446744073709551616.
  pose proof (Z.mod_pos_bound (z + 9223372036854775808) 18446744073709551616).
  lia.
Qed.

Lemma int_sub_int a b : int (int a - b) = int (a - b).
Proof.
  unfold int.
  change (2 ^ 63) with 9223372036854775808.
  change (2 ^ 64) with 18446744073709551616.
  f_equal.
  replace ((a + 9223372036854775808) `mod` 18446744073709551616
           - 9223372036854775808 - b + 9223372036854775808)
    with ((a + 9223372036854775808) `mod` 18446744073709551616 - b) by lia.
  rewrite Zminus_mod_idemp_l. f_equal. lia.
Qed.

Lemma int_sub_int_r a b : int (a - int b) = int (a - b).
Proof.
  unfold int.
  change (2 ^ 63) with 9223372036854775808.
  change (2 ^ 64) with 18446744073709551616.
  f_equal.
  replace (a - ((b + 9223372036854775808) `mod` 18446744073709551616
                - 9223372036854775808) + 9223372036854775808)
    with (a + 18446744073709551616
          - (b + 9223372036854775808) `mod` 18446744073709551616) by lia.
  rewrite Zminus_mod_idemp_r. f_equal. lia.
Qed.

Section placement.
Variables (this : KeepClient) (hash : string) (expectedLength : Z).
Variables (sv : list string).

Abbreviation reply :=
  (fun host => uploadToKeepServer this host hash expectedLength).
Abbreviation ok := (consistent this hash expectedLength sv).

Lemma init_consistent : ok (placer_init this).
Proof.
  unfold consistent. simpl. split; [pose proof (len_nonneg sv); lia|].
  split; [done|]. done.
Qed.

Lemma launch_consistent st host :
  ok st -> next_server st < len sv ->
  index sv (next_server st) = Returns host ->
  ok (launch (reply host) st).
Proof.
  intros (Hn & Ha & Hp) Hlt Hi. apply index_inv in Hi as [_ Hl].
  unfold consistent, launch; simpl. split; [lia|]. split.
  - rewrite len_app, Ha. done.
  - replace (Z.to_nat (next_server st + 1))
      with (S (Z.to_nat (next_server st))) by lia.
    rewrite (take_S_r _ _ _ Hl), fmap_app. simpl. rewrite <- Hp.
    rewrite <- !app_assoc. apply Permutation_app_head.
    apply Permutation_app_comm.
Qed.

(** The launching loop ends, and how. *)
Lemma start_uploads_Returns fuel st :
  ok st -> (length sv - Z.to_nat (next_server st) < fuel)%nat ->
  exists s,
    start_uploads fuel this hash expectedLength sv st = Returns s
    /\ ok (placer_of s)
    /\ remaining_replicas (placer_of s) = remaining_replicas st
    /\ received (placer_of s) = received st
    /\ match s with
       | Wait st' =>
           remaining_replicas st' <= active st'
           \/ (len sv <= next_server st' /\ active st' <> 0)
       | GiveUp st' =>
           active st' = 0 /\ len sv <= next_server st'
           /\ 0 < remaining_replicas st'
       end.
Proof.
  revert st. induction fuel as [|fuel IH]; intros st Hok Hf; [lia|].
  simpl. destruct (Z.ltb_spec (active st) (remaining_replicas st)) as [Hlt|Hge].
  - destruct (Z.ltb_spec (next_server st) (len sv)) as [Hn|Hn].
    + destruct Hok as (Hr & Ha & Hp).
      destruct (index_Returns sv (next_server st)) as (host & Hi & _); [lia|].
      rewrite Hi, bind_Returns.
      destruct (IH (launch (reply host) st)) as (s & E & H1 & H2 & H3 & H4).
      { by apply launch_consistent. }
      { simpl. unfold len in Hn. lia. }
      exists s. by rewrite E.
    + destruct (Z.eqb_spec (active st) 0) as [H0|H0].
      * exists (GiveUp st). simpl. intuition lia.
      * exists (Wait st). simpl. intuition lia.
  - exists (Wait st). simpl. intuition lia.
Qed.

(** A message is received whenever an uploader is out. *)
Lemma receive_Returns choice st :
  in_flight st <> [] ->
  exists status st',
    receive choice st = Returns (status, st')
    /\ in_flight st ≡ₚ status :: in_flight st'
    /\ received st' = received st ++ [status]
    /\ next_server st' = next_server st
    /\ active st' = active st
    /\ remaining_replicas st' = remaining_replicas st.
Proof.
  intros Hne. unfold receive.
  set (i := (choice `mod` length (in_flight st))%nat).
  assert (i < length (in_flight st))%nat as Hi.
  { apply Nat.mod_upper_bound. by destruct (in_flight st). }
  destruct (lookup_lt_is_Some_2 _ _ Hi) as [status Hs]. rewrite Hs.
  eexists _, _. split; [done|]. simpl. repeat split; try done.
  by apply delete_Permutation.
Qed.

Lemma receive_inv choice st status st' :
  receive choice st = Returns (status, st') ->
  in_flight st ≡ₚ status :: in_flight st'
  /\ received st' = received st ++ [status]
  /\ next_server st' = next_server st
  /\ active st' = active st
  /\ remaining_replicas st' = remaining_replicas st.
Proof.
  unfold receive. intros E.
  destruct (in_flight st !! _) as [s|] eqn:Hs; [|discriminate].
  injection E as <- <-. simpl. repeat split; try done.
  by apply delete_Permutation.
Qed.

Lemma account_consistent choice st status st' :
  ok st -> receive choice st = Returns (status, st') ->
  ok (account status st').
Proof.
  intros (Hn & Ha & Hp) E.
  apply receive_inv in E as (Hperm & Hrec & Hnext & Hact & _).
  unfold consistent, account; simpl. rewrite Hnext, Hact, Hrec.
  split; [done|]. split.
  - rewrite Ha. unfold len. rewrite Hperm. simpl. lia.
  - rewrite <- Hp, Hperm. simpl. rewrite app_assoc.
    rewrite <- Permutation_cons_append. done.
Qed.
(** [putReplicas] returns, whatever the servers answer and whatever order
    the messages come in: the budget of [put_loop] is never used up and no
    receive blocks. *)
Lemma put_loop_Returns sched fuel st :
  ok st ->
  (length sv - length (received st) < fuel)%nat ->
  exists p,
    put_loop fuel this hash expectedLength sv sched st = Returns p
    /\ settled this sv p.
Proof.
  revert st. induction fuel as [|fuel IH]; intros st Hok Hf; [lia|].
  cbn [put_loop].
  destruct (Z.ltb_spec 0 (remaining_replicas st)) as [Hpos|Hle].
  - unfold pass.
    destruct (start_uploads_Returns (S (length sv)) st Hok)
      as (s & -> & Hok1 & Hrem & Hrec & Hs); [lia|].
    rewrite bind_Returns. destruct s as [st1|st1]; simpl in *.
    + assert (in_flight st1 <> []) as Hne.
      { destruct Hok1 as (_ & Ha & _). intros E0. rewrite E0 in Ha.
        unfold len in Ha. simpl in Ha. lia. }
      destruct (receive_Returns (sched (length (received st1))) st1 Hne)
        as (status & st2 & E & _ & Hrec2 & _).
      rewrite E, !bind_Returns. simpl.
      apply IH.
      * eapply account_consistent; [exact Hok1|exact E].
      * simpl. rewrite Hrec2, length_app, Hrec. simpl.
        assert (length (received st) < length sv)%nat; [|lia].
        destruct Hok1 as (Hn & _ & Hp). apply Permutation_length in Hp.
        rewrite length_app, length_fmap, length_take, Hrec in Hp.
        destruct (in_flight st1); [done|]. simpl in Hp. lia.
    + eexists. split; [done|]. unfold settled; simpl.
      destruct Hs as (Ha & Hn & Hp). destruct Hok1 as (Hn' & Ha' & _).
      split; [done|]. split; [done|]. split; [done|]. split; [|lia].
      rewrite Ha in Ha'. unfold len in Ha'. by destruct (in_flight st1).
  - eexists. split; [done|]. unfold settled; simpl. split; [done|lia].
Qed.

(** The deficit is kept right as long as the counts reported are counts. *)
Section placement_balanced.
Hypothesis want_int : is_int (Want_replicas this).
Hypothesis reports : Forall (fun host => plausible (reply host)) sv.

Lemma started_plausible st :
  ok st -> Forall plausible (in_flight st) /\ Forall plausible (received st).
Proof.
  intros (_ & _ & Hp). apply Forall_app. rewrite Hp.
  apply Forall_fmap, Forall_take. exact reports.
Qed.

Lemma received_nonneg st : ok st -> 0 <= stored (received st).
Proof.
  intros Hok. apply stored_nonneg.
  destruct (started_plausible st Hok) as [_ H].
  eapply Forall_impl; [exact H|]. intros status Hs E. specialize (Hs E). lia.
Qed.

Lemma account_balanced choice st status st' :
  ok st -> balanced this st -> 0 < remaining_replicas st ->
  receive choice st = Returns (status, st') ->
  balanced this (account status st').
Proof.
  intros Hok Hb Hpos E.
  pose proof (received_nonneg st Hok) as H0.
  destruct (started_plausible st Hok) as [Hfl _].
  apply receive_inv in E as (Hperm & Hrec & _ & _ & Hrem).
  assert (plausible status) as Hs.
  { rewrite Hperm in Hfl. by apply Forall_cons in Hfl as [? _]. }
  unfold balanced, account in *; simpl.
  rewrite Hrec, stored_app, Hrem. simpl.
  destruct (Z.eqb_spec (statusCode status) 200) as [E200|E200]; [|lia].
  specialize (Hs E200). rewrite int_id; [lia|].
  unfold is_int, min_int, max_int in *. lia.
Qed.
End placement_balanced.
(** What the code runs through is what [visits] describes. *)
Lemma visits_consistent st : visits this hash expectedLength sv st -> ok st.
Proof.
  induction 1 as [|st host _ IH _ _ Hn Hi|st choice status st' _ IH _ _ E].
  - apply init_consistent.
  - by apply launch_consistent.
  - eapply account_consistent; [exact IH|exact E].
Qed.

Lemma visits_balanced st :
  is_int (Want_replicas this) ->
  Forall (fun host => plausible (reply host)) sv ->
  visits this hash expectedLength sv st -> balanced this st.
Proof.
  intros Hw Hr.
  induction 1 as [|st host _ IH _ _ _ _|st choice status st' Hv IH Hpos _ E].
  - unfold balanced. simpl. lia.
  - exact IH.
  - eapply (account_balanced Hw Hr); [|exact IH|exact Hpos|exact E].
    by apply visits_consistent.
Qed.

(** Whatever the servers report, the deficit is the requirement less the
    replicas reported stored, in the arithmetic of [int]. *)
Lemma visits_deficit st :
  is_int (Want_replicas this) ->
  visits this hash expectedLength sv st ->
  remaining_replicas st = int (Want_replicas this - stored (received st)).
Proof.
  intros Hw.
  induction 1 as [|st host _ IH _ _ _ _|st choice status st' _ IH _ _ E].
  - simpl. rewrite Z.sub_0_r. symmetry. by apply int_id.
  - exact IH.
  - apply receive_inv in E as (_ & Hrec & _ & _ & Hrem).
    simpl. rewrite Hrec, stored_app, Hrem, IH. simpl.
    destruct (statusCode status =? 200).
    + rewrite int_sub_int. f_equal. lia.
    + f_equal. lia.
Qed.

Lemma visits_no_wrap st :
  is_int (Want_replicas this) ->
  Forall (fun host => plausible (reply host)) sv ->
  visits this hash expectedLength sv st ->
  is_int (Want_replicas this - stored (received st)).
Proof.
  intros Hw Hr Hv.
  rewrite <- (visits_balanced st Hw Hr Hv), (visits_deficit st Hw Hv).
  apply int_is_int.
Qed.

Lemma put_loop_failure fuel sched st p :
  put_loop fuel this hash expectedLength sv sched st = Returns p ->
  failure p <> None -> 0 < remaining_replicas st.
Proof.
  intros E Hf. destruct fuel; cbn [put_loop] in E;
    destruct (Z.ltb_spec 0 (remaining_replicas st)); try done;
    by injection E as <-.
Qed.

Lemma start_uploads_visits fuel st s :
  visits this hash expectedLength sv st -> 0 < remaining_replicas st ->
  start_uploads fuel this hash expectedLength sv st = Returns s ->
  visits this hash expectedLength sv (placer_of s)
  /\ remaining_replicas (placer_of s) = remaining_replicas st
  /\ match s with
     | Wait st' =>
         remaining_replicas st' <= active st'
         \/ (len sv <= next_server st' /\ active st' <> 0)
     | GiveUp _ => True
     end.
Proof.
  revert st. induction fuel as [|fuel IH]; intros st Hv Hpos E; simpl in E.
  - destruct (Z.ltb_spec (active st) (remaining_replicas st)); [done|].
    injection E as <-. simpl. auto.
  - destruct (Z.ltb_spec (active st) (remaining_replicas st)) as [Hlt|Hge].
    + destruct (Z.ltb_spec (next_server st) (len sv)) as [Hn|Hn].
      * run_inv E. apply IH in E as (H1 & H2 & H3).
        -- by rewrite H2.
        -- by apply visits_launch.
        -- done.
      * destruct (Z.eqb_spec (active st) 0); injection E as <-; simpl; auto.
    + injection E as <-. simpl. auto.
Qed.

Lemma pass_visits sched st next :
  visits this hash expectedLength sv st -> 0 < remaining_replicas st ->
  pass this hash expectedLength sv sched st = Returns next ->
  visits this hash expectedLength sv
    (match next with inl st' => st' | inr p => final p end).
Proof.
  intros Hv Hpos E. unfold pass in E. run_inv E.
  apply start_uploads_visits in E0 as (H1 & H2 & H3); [|done|done].
  destruct r as [st1|st1]; simpl in *.
  - run_inv E. injection E as <-. destruct r as [status st2]. simpl.
    eapply visits_receive; [exact H1|lia|done|exact E0].
  - injection E as <-. done.
Qed.

Lemma put_loop_visits fuel sched st p :
  visits this hash expectedLength sv st ->
  put_loop fuel this hash expectedLength sv sched st = Returns p ->
  visits this hash expectedLength sv (final p).
Proof.
  revert st. induction fuel as [|fuel IH]; intros st Hv E; cbn [put_loop] in E;
    destruct (Z.ltb_spec 0 (remaining_replicas st)) as [Hpos|Hle];
    try discriminate; try (by injection E as <-).
  run_inv E. pose proof (pass_visits sched st r Hv Hpos E0) as Hr.
  destruct r as [st'|p']; [by apply (IH st')|]. by injection E as <-.
Qed.

(** Starting uploads never takes [active] above the deficit. *)
Lemma start_uploads_bounded fuel st s :
  start_uploads fuel this hash expectedLength sv st = Returns s ->
  active (placer_of s) <= Z.max (active st) (remaining_replicas st).
Proof.
  revert st. induction fuel as [|fuel IH]; intros st E; simpl in E.
  - destruct (Z.ltb_spec (active st) (remaining_replicas st)); [done|].
    injection E as <-. simpl. lia.
  - destruct (Z.ltb_spec (active st) (remaining_replicas st)) as [Hlt|Hge].
    + destruct (Z.ltb_spec (next_server st) (len sv)) as [Hn|Hn].
      * run_inv E. apply IH in E. simpl in E. lia.
      * destruct (Z.eqb_spec (active st) 0); injection E as <-; simpl; lia.
    + injection E as <-. simpl. lia.
Qed.

(** Nothing is started without a deficit or without a server left. *)
Lemma start_uploads_idle fuel st s :
  ok st ->
  remaining_replicas st <= 0 \/ len sv <= next_server st ->
  start_uploads fuel this hash expectedLength sv st = Returns s ->
  placer_of s = st.
Proof.
  intros (_ & Ha & _) Hidle E. pose proof (len_nonneg (in_flight st)).
  destruct fuel as [|fuel]; simpl in E.
  - destruct (Z.ltb_spec (active st) (remaining_replicas st)); [done|].
    by injection E as <-.
  - destruct (Z.ltb_spec (active st) (remaining_replicas st)) as [Hlt|Hge].
    + destruct (Z.ltb_spec (next_server st) (len sv)) as [Hn|Hn]; [lia|].
      by destruct (Z.eqb_spec (active st) 0); injection E as <-.
    + by injection E as <-.
Qed.

(** With servers that report one replica at most, the uploads that are out
    never outnumber the deficit. *)
Lemma visits_bounded st :
  is_int (Want_replicas this) -> 0 <= Want_replicas this ->
  Forall (fun host => statusCode (reply host) = 200 ->
                      0 <= replicas_stored (reply host) <= 1) sv ->
  visits this hash expectedLength sv st ->
  active st <= remaining_replicas st /\ remaining_replicas st <= max_int.
Proof.
  intros Hw H0 Hone.
  induction 1 as [|st host _ IH _ Hlt Hn Hi|st choice status st' Hv IH Hpos _ E].
  - simpl. unfold is_int in Hw. lia.
  - simpl. lia.
  - pose proof (visits_consistent st Hv) as (_ & _ & Hp).
    apply receive_inv in E as (Hperm & _ & _ & Hact & Hrem).
    assert (statusCode status = 200 -> 0 <= replicas_stored status <= 1) as Hs.
    { assert (Forall (fun status => statusCode status = 200 ->
                        0 <= replicas_stored status <= 1)
                (in_flight st ++ received st)) as Hall.
      { rewrite Hp. apply Forall_fmap, Forall_take. exact Hone. }
      apply Forall_app in Hall as [Hfl _]. rewrite Hperm in Hfl.
      by apply Forall_cons in Hfl as [? _]. }
    simpl. rewrite Hact, Hrem.
    destruct (Z.eqb_spec (statusCode status) 200) as [E200|E200]; [|lia].
    specialize (Hs E200). rewrite int_id; [lia|].
    unfold is_int, min_int, max_int in *. lia.
Qed.
End placement.

Lemma shuffledServiceRoots_Returns (this : KeepClient) (hash : string) :
  (8 <= String.length hash)%nat ->
  exists sv, shuffledServiceRoots this hash = Returns sv
             /\ sv ≡ₚ Service_roots this.
Proof.
  intros Hh. unfold shuffledServiceRoots.
  destruct (shuffle_loop_Returns (length (Service_roots this)) (bytes hash)
              (shuffle_init this hash)) as (out & E & Hperm); eauto.
  rewrite len_bytes. lia.
Qed.

(** [putReplicas] returns for every hash of eight digits or more. *)
Lemma putReplicas_run_Returns (this : KeepClient) (hash : string)
  (expectedLength : Z) (sched : nat -> nat) :
  (8 <= String.length hash)%nat ->
  exists sv p,
    sv ≡ₚ Service_roots this
    /\ putReplicas_run this hash expectedLength sched = Returns p
    /\ putReplicas this hash expectedLength sched
       = Returns (replicas p, failure p)
    /\ visits this hash expectedLength sv (final p)
    /\ settled this sv p
    /\ (failure p <> None -> 0 < Want_replicas this).
Proof.
  intros Hh.
  destruct (shuffledServiceRoots_Returns this hash Hh) as (sv & Esv & Hperm).
  destruct (put_loop_Returns this hash expectedLength sv sched
              (S (length sv)) (placer_init this))
    as (p & E & Hs).
  - apply init_consistent.
  - simpl. lia.
  - exists sv, p. unfold putReplicas, putReplicas_run.
    rewrite Esv, !bind_Returns, E. repeat split; try done.
    + eapply put_loop_visits; [apply visits_init|exact E].
    + intros Hf. by apply (put_loop_failure _ _ _ _ _ _ _ _ E) in Hf.
Qed.

(** Whatever the hash, the budgets of the loops are never what stops
    [putReplicas], and no receive blocks: if it does not return, the probe
    sequence has panicked. *)
Lemma putReplicas_run_stops (this : KeepClient) (hash : string)
  (expectedLength : Z) (sched : nat -> nat) :
  (exists p, putReplicas_run this hash expectedLength sched = Returns p)
  \/ (exists why,
        shuffledServiceRoots this hash = Panics why
        /\ putReplicas_run this hash expectedLength sched = Panics why).
Proof.
  unfold putReplicas_run.
  destruct (shuffledServiceRoots this hash) as [sv|why|] eqn:Esv.
  - left. rewrite bind_Returns.
    destruct (put_loop_Returns this hash expectedLength sv sched
                (S (length sv)) (placer_init this)) as (p & E & _).
    + apply init_consistent.
    + simpl. lia.
    + eauto.
  - right. eauto.
  - exfalso. revert Esv. by apply shuffle_loop_fuel.
Qed.

(** What [putReplicas] returns, whatever the servers report: the counts add
    up in the arithmetic of [int]. *)
Lemma putReplicas_run_modular (this : KeepClient) (hash : string)
  (expectedLength : Z) (sched : nat -> nat) :
  (8 <= String.length hash)%nat ->
  is_int (Want_replicas this) ->
  exists p,
    putReplicas_run this hash expectedLength sched = Returns p
    /\ match failure p with
       | None =>
           replicas p = Want_replicas this
           /\ int (Want_replicas this - stored (received (final p))) <= 0
       | Some e =>
           e = InsufficientReplicasError
           /\ replicas p = int (stored (received (final p)))
           /\ 0 < int (Want_replicas this - stored (received (final p)))
           /\ received (final p) ≡ₚ
                (fun host => uploadToKeepServer this host hash expectedLength)
                  <$> Service_roots this
       end.
Proof.
  intros Hh Hw.
  destruct (putReplicas_run_Returns this hash expectedLength sched Hh)
    as (sv & p & Hperm & E1 & _ & Hv & Hs & _).
  pose proof (visits_consistent _ _ _ _ _ Hv) as Hok.
  pose proof (visits_deficit _ _ _ _ _ Hw Hv) as Hd.
  exists p. split; [done|]. unfold settled in Hs.
  destruct (failure p) as [e|].
  - destruct Hs as (-> & Hn & Hpos & Hfl & Hnext). split; [done|].
    rewrite Hd in Hn, Hpos. rewrite int_sub_int_r in Hn.
    split; [rewrite Hn; f_equal; lia|]. split; [done|].
    destruct Hok as (_ & _ & Hp). rewrite Hfl, Hnext in Hp. simpl in Hp.
    rewrite Hp, take_ge by (unfold len; lia). by rewrite Hperm.
  - destruct Hs as (Hn & Hle). by rewrite <- Hd.
Qed.

(** C4 (as stated: a nil error only if the replicas reported stored reach
    [Want_replicas]). With [Want_replicas = 2], two uploads are started; the
    first message received has status 200 and reports
    [-9223372036854775807] replicas stored. [remaining_replicas -= ...]
    wraps around to [-9223372036854775807], the loop is left and
    [putReplicas] returns [(2, nil)], with a sum of replicas reported stored
    that is far below 2. *)
Lemma putReplicas_contract_counterexample :
  exists p,
    putReplicas_run (client 2 three_roots overdrawn) foo 0 in_order
    = Returns p
    /\ putReplicas (client 2 three_roots overdrawn) foo 0 in_order
       = Returns (2, None)
    /\ failure p = None
    /\ remaining_replicas (final p) = -9223372036854775807
    /\ stored (received (final p)) = -9223372036854775807
    /\ ~ Want_replicas (client 2 three_roots overdrawn)
         <= stored (received (final p)).
Proof.
  remember (putReplicas_run (client 2 three_roots overdrawn) foo 0 in_order)
    as r eqn:E.
  vm_compute in E.
  match type of E with _ = Returns ?p => exists p end.
  split; [exact E|]. split; [vm_compute; reflexivity|].
  split; [reflexivity|]. split; [reflexivity|].
  split; [vm_compute; reflexivity|].
  vm_compute. intros H. apply H. reflexivity.
Qed.

(** C4 (amended). For every order in which the messages come in,
    [putReplicas] returns; it returns a nil error only when the replicas
    reported stored by the servers that answered 200 reach [Want_replicas];
    otherwise it returns [InsufficientReplicasError] and, as the count, the
    sum of the replicas reported stored, which every server of
    [Service_roots] has then been asked for. The hash has the eight digits
    the source asks for, and the deficit does not overflow its 64 bits: the
    counts reported are not negative, or the requirement less the counts
    received is an [int]. *)
Theorem putReplicas_contract (this : KeepClient) (hash : string)
  (expectedLength : Z) (sched : nat -> nat) :
  (8 <= String.length hash)%nat ->
  is_int (Want_replicas this) ->
  exists p,
    putReplicas_run this hash expectedLength sched = Returns p
    /\ putReplicas this hash expectedLength sched
       = Returns (replicas p, failure p)
    /\ (Forall (fun host =>
                  plausible (uploadToKeepServer this host hash expectedLength))
          (Service_roots this)
        \/ is_int (Want_replicas this - stored (received (final p))) ->
        match failure p with
        | None =>
            Want_replicas this <= stored (received (final p))
            /\ Want_replicas this <= replicas p
        | Some e =>
            e = InsufficientReplicasError
            /\ replicas p = stored (received (final p))
            /\ replicas p < Want_replicas this
            /\ received (final p) ≡ₚ
                 (fun host =>
                    uploadToKeepServer this host hash expectedLength)
                   <$> Service_roots this
        end).
Proof.
  intros Hh Hw.
  destruct (putReplicas_run_Returns this hash expectedLength sched Hh)
    as (sv & p & Hperm & E1 & E2 & Hv & Hs & Hpos).
  exists p. split; [done|]. split; [done|]. intros Hfit.
  assert (is_int (Want_replicas this - stored (received (final p)))) as Hi.
  { destruct Hfit as [Hr|Hi]; [|done].
    apply (visits_no_wrap this hash expectedLength sv); try done.
    by rewrite Hperm. }
  pose proof (visits_consistent _ _ _ _ _ Hv) as Hok.
  pose proof (visits_deficit _ _ _ _ _ Hw Hv) as Hd.
  rewrite (int_id _ Hi) in Hd.
  unfold settled in Hs. destruct (failure p) as [e|].
  - destruct Hs as (-> & Hn & Hrem & Hfl & Hnext). split; [done|].
    specialize (Hpos ltac:(done)).
    rewrite int_id in Hn by (unfold is_int, min_int, max_int in *; lia).
    split; [lia|]. split; [lia|].
    destruct Hok as (_ & _ & Hp). rewrite Hfl, Hnext in Hp. simpl in Hp.
    rewrite Hp, take_ge by (unfold len; lia). by rewrite Hperm.
  - destruct Hs as (Hn & Hle). split; lia.
Qed.

Lemma putReplicas_contract_witness :
  (exists p,
      putReplicas_run (client 5 three_roots answering) foo 0 in_order
      = Returns p
      /\ failure p = Some InsufficientReplicasError
      /\ replicas p = 4 /\ stored (received (final p)) = 4)
  /\ (exists p,
        putReplicas_run (client 2 three_roots answering) foo 0 in_order
        = Returns p
        /\ failure p = None
        /\ replicas p = 2 /\ 2 <= stored (received (final p))).
Proof.
  split.
  - destruct (putReplicas_contract (client 5 three_roots answering) foo 0
                in_order) as (p & E & _ & Hp).
    + vm_compute. lia.
    + vm_compute. split; discriminate.
    + exists p. split; [exact E|].
      assert (failure p = Some InsufficientReplicasError
              /\ stored (received (final p)) = 4) as [Hf Hs].
      { pose proof E as E'. vm_compute in E'. injection E' as <-.
        split; vm_compute; reflexivity. }
      rewrite Hf in Hp. destruct Hp as (_ & Hn & _).
      * left.
        repeat (constructor; [vm_compute; intros _; split; discriminate|]).
        constructor.
      * split; [exact Hf|]. split; [by rewrite Hn|exact Hs].
  - destruct (putReplicas_contract (client 2 three_roots answering) foo 0
                in_order) as (p & E & _ & Hp).
    + vm_compute. lia.
    + vm_compute. split; discriminate.
    + exists p. split; [exact E|].
      assert (failure p = None /\ replicas p = 2
              /\ stored (received (final p)) = 3) as (Hf & Hn & Hs).
      { pose proof E as E'. vm_compute in E'. injection E' as <-.
        repeat split; vm_compute; reflexivity. }
      rewrite Hf in Hp. destruct Hp as (Hsum & _).
      * right. rewrite Hs. vm_compute. split; discriminate.
      * split; [exact Hf|]. split; [exact Hn|exact Hsum].
Defined.

Section sufficiency.
Variables (this : KeepClient) (hash : string) (expectedLength : Z).

Abbreviation reply' :=
  (fun host => uploadToKeepServer this host hash expectedLength).
Abbreviation well host :=
  (healthy this hash expectedLength host
   || failing this hash expectedLength host = true).

Lemma well_plausible host : well host -> plausible (reply' host).
Proof.
  unfold healthy, failing, plausible. intros H E.
  rewrite E in H. simpl in H. rewrite orb_false_r in H.
  apply Z.eqb_eq in H. rewrite H. unfold max_int. lia.
Qed.

Lemma stored_healthy (l : list string) :
  Forall (fun host => well host) l ->
  stored (reply' <$> l)
  = len (List.filter (healthy this hash expectedLength) l).
Proof.
  unfold len.
  induction 1 as [|host l H _ IH]; [done|].
  rewrite fmap_cons, stored_cons, IH. cbn [List.filter].
  unfold healthy, failing in *.
  destruct (statusCode (reply' host) =? 200); simpl in *.
  - rewrite orb_false_r in H. rewrite H. apply Z.eqb_eq in H. rewrite H.
    simpl length. lia.
  - done.
Qed.

Lemma received_le_all (sv : list string) (st : placer) :
  Forall (fun host => plausible (reply' host)) sv ->
  consistent this hash expectedLength sv st ->
  stored (received st) <= stored (reply' <$> sv).
Proof.
  intros Hr (_ & _ & Hp).
  assert (forall l, Forall plausible l -> 0 <= stored l) as Hnn.
  { intros l Hl. apply stored_nonneg. eapply Forall_impl; [exact Hl|].
    intros status Hs E. specialize (Hs E). lia. }
  rewrite <- (take_drop (Z.to_nat (next_server st)) sv) in Hr |- * at 1.
  apply Forall_app in Hr as [Ht Hd].
  apply Forall_fmap in Ht, Hd.
  rewrite fmap_app, stored_app, <- Hp, stored_app.
  pose proof (Hnn _ Hd).
  assert (Forall plausible (in_flight st)) as Hf.
  { rewrite <- Hp in Ht. by apply Forall_app in Ht as [? _]. }
  pose proof (Hnn _ Hf). lia.
Qed.
End sufficiency.

(** C5. With every server of the pool either healthy (it answers 200 and
    stores the one replica it is sent) or failing, a write that wants [R]
    replicas from a pool with [R'] healthy servers returns a nil error and a
    count of at least [R] when [R' >= R], and
    [InsufficientReplicasError] with the count [R'] when [R' < R]. *)
Theorem putReplicas_sufficiency (this : KeepClient) (hash : string)
  (expectedLength : Z) (sched : nat -> nat) :
  (8 <= String.length hash)%nat ->
  is_int (Want_replicas this) ->
  Forall (fun host =>
            healthy this hash expectedLength host
            || failing this hash expectedLength host = true)
    (Service_roots this) ->
  exists n e,
    putReplicas this hash expectedLength sched = Returns (n, e)
    /\ (Want_replicas this <= healthy_backends this hash expectedLength ->
        e = None /\ Want_replicas this <= n)
    /\ (healthy_backends this hash expectedLength < Want_replicas this ->
        e = Some InsufficientReplicasError
        /\ n = healthy_backends this hash expectedLength).
Proof.
  intros Hh Hw Hwell.
  assert (Forall (fun host =>
            plausible (uploadToKeepServer this host hash expectedLength))
            (Service_roots this)) as Hr.
  { eapply Forall_impl; [exact Hwell|]. apply well_plausible. }
  destruct (putReplicas_run_Returns this hash expectedLength sched Hh)
    as (sv & p & Hperm & _ & E & Hv & Hs & _).
  assert (Forall (fun host =>
            plausible (uploadToKeepServer this host hash expectedLength)) sv)
    as Hr' by (by rewrite Hperm).
  pose proof (visits_consistent _ _ _ _ _ Hv) as Hok.
  pose proof (visits_balanced _ _ _ _ _ Hw Hr' Hv) as Hb.
  pose proof (received_nonneg _ _ _ _ Hr' _ Hok) as H0.
  exists (replicas p), (failure p). split; [done|].
  assert (stored ((fun host =>
            uploadToKeepServer this host hash expectedLength) <$> sv)
          = healthy_backends this hash expectedLength) as Hall.
  { rewrite (stored_perm _ _ (fmap_Permutation _ _ _ Hperm)).
    by apply stored_healthy. }
  pose proof (received_le_all this hash expectedLength sv (final p)
                ltac:(by rewrite Hperm) Hok) as Hle.
  rewrite Hall in Hle.
  unfold settled, balanced in *. destruct (failure p) as [e|].
  - destruct Hs as (-> & Hn & Hpos & Hfl & Hnext).
    rewrite int_id in Hn by (unfold is_int, min_int, max_int in *; lia).
    assert (stored (received (final p))
            = healthy_backends this hash expectedLength) as Hrec.
    { rewrite <- Hall. apply stored_perm.
      destruct Hok as (_ & _ & Hp). rewrite Hfl, Hnext in Hp. simpl in Hp.
      rewrite Hp, take_ge by (unfold len; lia). done. }
    split; [lia|]. intros _. split; [done|lia].
  - destruct Hs as (Hn & Hrem). split; [intros _; split; [done|lia]|lia].
Qed.

Lemma putReplicas_sufficiency_witness :
  putReplicas (client 3 three_roots two_healthy) foo 0 in_order
  = Returns (2, Some InsufficientReplicasError)
  /\ exists n,
      putReplicas (client 2 three_roots two_healthy) foo 0 in_order
      = Returns (n, None)
      /\ 2 <= n.
Proof.
  split.
  - destruct (putReplicas_sufficiency (client 3 three_roots two_healthy) foo 0
                in_order) as (n & e & E & _ & Hlt).
    + vm_compute. lia.
    + vm_compute. split; discriminate.
    + repeat (constructor; [vm_compute; reflexivity|]). constructor.
    + destruct Hlt as [He Hn]; [reflexivity|]. rewrite E, He, Hn. reflexivity.
  - destruct (putReplicas_sufficiency (client 2 three_roots two_healthy) foo 0
                in_order) as (n & e & E & Hge & _).
    + vm_compute. lia.
    + vm_compute. split; discriminate.
    + repeat (constructor; [vm_compute; reflexivity|]). constructor.
    + destruct Hge as [He Hn]; [vm_compute; discriminate|].
      exists n. rewrite E, He. split; [reflexivity|exact Hn].
Defined.

Lemma putReplicas_run_visits (this : KeepClient) (hash : string)
  (expectedLength : Z) (sched : nat -> nat) (p : placed) :
  putReplicas_run this hash expectedLength sched = Returns p ->
  exists sv,
    shuffledServiceRoots this hash = Returns sv
    /\ visits this hash expectedLength sv (final p).
Proof.
  unfold putReplicas_run. intros E. run_inv E. exists r. split; [done|].
  eapply put_loop_visits; [apply visits_init|exact E].
Qed.

(** C6 (as stated: the uploads that are out never outnumber the deficit).
    With [Want_replicas = 4] and three servers, all three uploads are
    started; the first message received is the proxy's, which reports three
    replicas stored: the deficit is then one, with two uploads still out,
    and the loop goes on. *)
Lemma putReplicas_parallelism_counterexample :
  exists sv st,
    shuffledServiceRoots (client 4 three_roots answering) foo = Returns sv
    /\ visits (client 4 three_roots answering) foo 0 sv st
    /\ 0 < remaining_replicas st
    /\ remaining_replicas st < active st.
Proof.
  set (this := client 4 three_roots answering).
  set (sv := ["http://keep1:25107"; "http://keep0:25107";
              "http://keep2:25107"]).
  set (st := {| next_server := 3; active := 2; remaining_replicas := 1;
                in_flight := [uploadToKeepServer this "http://keep0:25107" foo 0;
                              uploadToKeepServer this "http://keep2:25107" foo 0];
                received := [uploadToKeepServer this "http://keep1:25107" foo 0]
             |}).
  exists sv, st. split; [reflexivity|]. split; [|split; reflexivity].
  assert (pass this foo 0 sv in_order (placer_init this) = Returns (inl st))
    as E by reflexivity.
  apply (pass_visits this foo 0 sv in_order _ _ (visits_init _ _ _ _)) in E;
    [exact E|reflexivity].
Qed.

(** C6 (amended). In every state [putReplicas] passes through, starting
    uploads never takes [active] above the larger of its value and the
    deficit, and starts nothing once the deficit is zero or every server of
    the probe sequence has been started. When [Want_replicas] is not negative
    and every server that answers 200 reports one replica at most, [active]
    never exceeds [remaining_replicas]. *)
Theorem putReplicas_parallelism (this : KeepClient) (hash : string)
  (expectedLength : Z) (sv : list string) (st : placer) :
  visits this hash expectedLength sv st ->
  (forall fuel s,
      start_uploads fuel this hash expectedLength sv st = Returns s ->
      active (placer_of s) <= Z.max (active st) (remaining_replicas st)
      /\ (remaining_replicas st <= 0 \/ len sv <= next_server st ->
          placer_of s = st))
  /\ (is_int (Want_replicas this) -> 0 <= Want_replicas this ->
      Forall (fun host =>
                let status :=
                  uploadToKeepServer this host hash expectedLength in
                statusCode status = 200 -> 0 <= replicas_stored status <= 1)
        sv ->
      active st <= remaining_replicas st).
Proof.
  intros Hv. split.
  - intros fuel s E. split.
    + by apply (start_uploads_bounded this hash expectedLength sv fuel).
    + intros Hidle.
      apply (start_uploads_idle this hash expectedLength sv fuel); try done.
      by apply visits_consistent.
  - intros Hw H0 Hone.
    by apply (visits_bounded this hash expectedLength sv st Hw H0 Hone).
Qed.

Lemma putReplicas_parallelism_witness :
  let this := client 2 three_roots two_healthy in
  let sv := ["http://keep1:25107"; "http://keep0:25107";
             "http://keep2:25107"] in
  let st := {| next_server := 2; active := 1; remaining_replicas := 1;
               in_flight := [uploadToKeepServer this "http://keep0:25107" foo 0];
               received := [uploadToKeepServer this "http://keep1:25107" foo 0]
            |} in
  (forall fuel s,
      start_uploads fuel this foo 0 sv st = Returns s ->
      active (placer_of s) <= Z.max (active st) (remaining_replicas st)
      /\ (remaining_replicas st <= 0 \/ len sv <= next_server st ->
          placer_of s = st))
  /\ active st <= remaining_replicas st.
Proof.
  intros this sv st.
  destruct (putReplicas_parallelism this foo 0 sv st) as [Hstart Hbound].
  - assert (pass this foo 0 sv in_order (placer_init this) = Returns (inl st))
      as E by reflexivity.
    apply (pass_visits this foo 0 sv in_order _ _ (visits_init _ _ _ _)) in E;
      [exact E|reflexivity].
  - split; [exact Hstart|]. apply Hbound.
    + vm_compute. split; discriminate.
    + vm_compute. discriminate.
    + repeat (constructor; [vm_compute; intros _; split; discriminate|]).
      constructor.
Defined.

Lemma put_loop_success fuel (this : KeepClient) (hash : string)
  (expectedLength : Z) (sv : list string) (sched : nat -> nat)
  (st : placer) (p : placed) :
  put_loop fuel this hash expectedLength sv sched st = Returns p ->
  failure p = None -> replicas p = Want_replicas this.
Proof.
  revert st. induction fuel as [|fuel IH]; intros st E Hnil;
    cbn [put_loop] in E; destruct (0 <? remaining_replicas st);
    try discriminate; try (by injection E as <-).
  run_inv E. destruct r as [st'|p'].
  - by apply (IH st').
  - injection E as <-. unfold pass in E0. run_inv E0.
    destruct r as [st1|st1].
    + run_inv E0. discriminate.
    + injection E0 as <-. discriminate.
Qed.

(** C10. Whenever [putReplicas] returns a nil error the count it returns is
    [Want_replicas], and for a hash of eight digits or more it does return.
    That is so also when more replicas than [Want_replicas] have been
    reported stored: a client that wants two replicas and whose only server
    is a proxy reporting three gets two. *)
Theorem putReplicas_success_count (this : KeepClient) (hash : string)
  (expectedLength : Z) (sched : nat -> nat) :
  (forall n,
      putReplicas this hash expectedLength sched = Returns (n, None) ->
      n = Want_replicas this)
  /\ ((8 <= String.length hash)%nat ->
      exists n e, putReplicas this hash expectedLength sched = Returns (n, e))
  /\ exists p,
      putReplicas_run (client 2 ["http://keep1:25107"] answering) foo 0
        in_order = Returns p
      /\ failure p = None
      /\ stored (received (final p)) = 3
      /\ replicas p = 2.
Proof.
  split; [|split].
  - intros n E. unfold putReplicas in E. run_inv E. injection E as <- Hnil.
    unfold putReplicas_run in E0. run_inv E0.
    by apply put_loop_success in E0.
  - intros Hh.
    destruct (putReplicas_run_Returns this hash expectedLength sched Hh)
      as (sv & p & _ & _ & E & _). eauto.
  - eexists. split; [reflexivity|]. split; [reflexivity|].
    split; reflexivity.
Qed.

Lemma putReplicas_success_count_witness :
  2 = Want_replicas (client 2 ["http://keep1:25107"] answering)
  /\ exists n e,
      putReplicas (client 2 ["http://keep1:25107"] answering) foo 0 in_order
      = Returns (n, e).
Proof.
  destruct (putReplicas_success_count
              (client 2 ["http://keep1:25107"] answering) foo 0 in_order)
    as (Hcount & Hreturns & _).
  split.
  - apply Hcount. reflexivity.
  - apply Hreturns. vm_compute. lia.
Defined.

(** ** Reading through the cache *)

(** C8. A read of the disk cache returns an error only if the local file
    could not serve it and the gateway failed, and the error is the
    gateway's. Whatever is wrong with the local file (absent, too short,
    unreadable), the read falls through: if the gateway delivers the block,
    the read returns no error and the requested range of the fetched block,
    all of the requested bytes when the block holds them, and the fetched
    block becomes the cache file. *)
Theorem DiskCache_ReadAt_fallthrough {G : Type} `{arvados.KeepGateway G}
  (gateway : G) (dir : gmap string arvados.cachefile) (locator : string)
  (dst offset : nat) :
  let r := arvados.DiskCache_ReadAt gateway dir locator dst offset in
  (forall e,
      arvados.err r = Some e ->
      arvados.local_ReadAt dir locator dst offset = None
      /\ (arvados.BlockRead gateway locator).2 = Some e)
  /\ (arvados.local_ReadAt dir locator dst offset = None ->
      forall fetched,
        arvados.BlockRead gateway locator = (fetched, None) ->
        arvados.err r = None
        /\ arvados.got r = take dst (drop offset fetched)
        /\ ((offset + dst <= length fetched)%nat ->
            length (arvados.got r) = dst)
        /\ arvados.dir_after r !! locator = Some (arvados.Contents fetched)).
Proof.
  intros r. subst r. unfold arvados.DiskCache_ReadAt. split.
  - intros e. destruct (arvados.local_ReadAt dir locator dst offset);
      [discriminate|].
    destruct (arvados.BlockRead gateway locator) as [fetched [e'|]]; simpl;
      [|discriminate].
    intros [= ->]. done.
  - intros -> fetched ->. simpl. split; [done|]. split; [done|]. split.
    + intros Hlen. rewrite length_take, length_drop. lia.
    + apply lookup_insert_eq.
Qed.

Lemma DiskCache_ReadAt_fallthrough_witness :
  (let r := arvados.DiskCache_ReadAt backend mangled loc8 4 2 in
   arvados.err r = None
   /\ arvados.got r = take 4 (drop 2 block8)
   /\ length (arvados.got r) = 4%nat
   /\ arvados.dir_after r !! loc8 = Some (arvados.Contents block8))
  /\ (arvados.local_ReadAt mangled loc8 4 2 = None
      /\ (arvados.BlockRead arvados.BlackHole loc8).2
         = Some arvados.BlockNotFoundAnywhere).
Proof.
  split.
  - destruct (DiskCache_ReadAt_fallthrough backend mangled loc8 4 2)
      as [_ Hfall].
    destruct (Hfall eq_refl block8 eq_refl) as (He & Hg & Hl & Hd).
    split; [exact He|]. split; [exact Hg|]. split; [|exact Hd].
    apply Hl. vm_compute. lia.
  - destruct (DiskCache_ReadAt_fallthrough arvados.BlackHole mangled loc8 4 2)
      as [Herr _].
    apply (Herr arvados.BlockNotFoundAnywhere). reflexivity.
Defined.

(** [keepGatewayMemoryBacked.ReadAt] on the block of eight bytes: a read
    inside the block, a read across its end, a read of a block it does not
    hold, and a read at a negative offset. *)
Example keepGatewayMemoryBacked_ReadAt_runs :
  arvados.ReadAt backend loc8 4 2 = Returns (repeat Byte.x2a 4, None)
  /\ arvados.ReadAt backend loc8 4 6
     = Returns (repeat Byte.x2a 2, Some arvados.EOF)
  /\ arvados.ReadAt backend "d41d8cd98f00b204e9800998ecf8427e+0" 4 0
     = Returns ([], Some (arvados.BlockNotFound
                            "d41d8cd98f00b204e9800998ecf8427e+0"))
  /\ arvados.ReadAt backend loc8 4 (-1) = Panics SliceBounds.
Proof. repeat split; reflexivity. Qed.

(** The reads of [testConcurrentReaders] with [mangleCache]: while the
    backing store holds the block, a read inside the block returns all the
    bytes asked for and no error, whether the cache file has been removed,
    made unreadable, or cut down to any length. *)
Lemma testConcurrentReaders_mangled (k : arvados.keepGatewayMemoryBacked)
  (dir : gmap string arvados.cachefile) (locator : string)
  (blk : list Byte.byte) (dst offset : nat) :
  arvados.block k locator = Some blk ->
  (offset + dst <= length blk)%nat ->
  dir !! locator = None
  \/ dir !! locator = Some arvados.Unreadable
  \/ (exists n, dir !! locator = Some (arvados.Contents (take n blk))) ->
  let r := arvados.DiskCache_ReadAt k dir locator dst offset in
  arvados.err r = None
  /\ arvados.got r = take dst (drop offset blk)
  /\ length (arvados.got r) = dst.
Proof.
  intros Hb Hlen Hdir r. subst r.
  assert (length (take dst (drop offset blk)) = dst) as Hl.
  { rewrite length_take, length_drop. lia. }
  assert (arvados.BlockRead k locator = (blk, None)) as Hfetch.
  { simpl. unfold arvados.keepGatewayMemoryBacked_BlockRead. by rewrite Hb. }
  unfold arvados.DiskCache_ReadAt, arvados.local_ReadAt.
  destruct Hdir as [->|[->|[n ->]]].
  - rewrite Hfetch. done.
  - rewrite Hfetch. done.
  - destruct (Nat.leb_spec (offset + dst) (length (take n blk))) as [Hn|Hn].
    + simpl. split; [done|]. rewrite length_take in Hn.
      rewrite take_drop_commute, take_take, take_drop_commute.
      replace ((offset + dst) `min` n)%nat with (offset + dst)%nat by lia.
      split; [done|]. rewrite length_drop, length_take. lia.
    + rewrite Hfetch. done.
Qed.

(** The reads of [testConcurrentReaders] with [cannotRefresh]: the block is
    gone from the backing store and the cache file is whole; the read is
    served from the file. *)
Lemma testConcurrentReaders_no_refresh (k : arvados.keepGatewayMemoryBacked)
  (dir : gmap string arvados.cachefile) (locator : string)
  (blk : list Byte.byte) (dst offset : nat) :
  arvados.block k locator = None ->
  dir !! locator = Some (arvados.Contents blk) ->
  (offset + dst <= length blk)%nat ->
  let r := arvados.DiskCache_ReadAt k dir locator dst offset in
  arvados.err r = None
  /\ arvados.got r = take dst (drop offset blk)
  /\ length (arvados.got r) = dst.
Proof.
  intros _ Hdir Hlen r. subst r.
  unfold arvados.DiskCache_ReadAt, arvados.local_ReadAt. rewrite Hdir.
  destruct (Nat.leb_spec (offset + dst) (length blk)) as [_|Hn]; [|lia].
  simpl. split; [done|]. split; [done|].
  rewrite length_take, length_drop. lia.
Qed.

(** The same read, computed: three bytes are left of the cache file, the
    read of four bytes at offset two is served by the gateway. *)
Example DiskCache_ReadAt_mangled :
  arvados.local_ReadAt mangled loc8 4 2 = None
  /\ arvados.got (arvados.DiskCache_ReadAt backend mangled loc8 4 2)
     = repeat Byte.x2a 4
  /\ arvados.err (arvados.DiskCache_ReadAt backend mangled loc8 4 2) = None
  /\ arvados.err
       (arvados.DiskCache_ReadAt (arvados.BlackHole) mangled loc8 4 2)
     = Some arvados.BlockNotFoundAnywhere.
Proof. repeat split; reflexivity. Qed.

(** * The rest of [support.go] and of the test gateways *)

(** ** Finding the servers *)

Section discovering.
Import discovery.

Lemma scan_one_scanned st element :
  scanned st ->
  scanned (scan_one st element)
  /\ (forall url, url ∈ roots (scan_one st element)
                  <-> url ∈ roots st \/ url = service_url element)
  /\ using_proxy (scan_one st element) = using_proxy st || is_proxy element.
Proof.
  intros [Hnd Hl]. unfold scan_one, is_proxy.
  set (url := service_url element).
  destruct (is_listed st url) eqn:El; simpl.
  - assert (url ∈ roots st) as Hin by (by apply Hl).
    destruct (String.eqb (SvcType element) "proxy"); simpl;
      (split; [done|]); (split; [|by rewrite ?orb_true_r, ?orb_false_r]);
      intros u; split; auto; intros [?| ->]; auto.
  - assert (url ∉ roots st) as Hnin.
    { intros Hin. apply Hl in Hin. congruence. }
    assert (scanned {| listed := <[url:=true]> (listed st);
                       roots := roots st ++ [url];
                       using_proxy := using_proxy st |}) as Hs.
    { split; simpl.
      - apply NoDup_app. split; [done|]. split; [|apply NoDup_singleton].
        intros u Hu ->%list_elem_of_singleton. done.
      - intros u. unfold is_listed. simpl. rewrite elem_of_app,
          list_elem_of_singleton.
        destruct (decide (url = u)) as [<-|Hne].
        + rewrite lookup_insert_eq. simpl. split; auto.
        + rewrite lookup_insert_ne by done. specialize (Hl u).
          unfold is_listed in Hl. rewrite Hl. split; [auto|].
          intros [?| ->]; [done|congruence]. }
    destruct (String.eqb (SvcType element) "proxy"); simpl;
      (split; [exact Hs|]); (split; [|by rewrite ?orb_true_r, ?orb_false_r]);
      intros u; by rewrite elem_of_app, list_elem_of_singleton.
Qed.

Lemma scan_foldl_scanned items st :
  scanned st ->
  scanned (foldl scan_one st items)
  /\ (forall url, url ∈ roots (foldl scan_one st items)
                  <-> url ∈ roots st \/ url ∈ service_url <$> items)
  /\ using_proxy (foldl scan_one st items)
     = using_proxy st || existsb is_proxy items.
Proof.
  revert st. induction items as [|element items IH]; intros st Hs; simpl.
  - split; [done|]. split; [|by rewrite orb_false_r].
    intros url. rewrite elem_of_nil. tauto.
  - destruct (scan_one_scanned st element Hs) as (Hs1 & Hin1 & Hp1).
    destruct (IH _ Hs1) as (Hs2 & Hin2 & Hp2).
    split; [done|]. split.
    + intros url. rewrite Hin2, Hin1, elem_of_cons. tauto.
    + by rewrite Hp2, Hp1, orb_assoc.
Qed.

Lemma scan_items_scanned p items :
  NoDup (roots (scan_items p items))
  /\ (forall url, url ∈ roots (scan_items p items)
                  <-> url ∈ service_url <$> items)
  /\ using_proxy (scan_items p items) = p || existsb is_proxy items.
Proof.
  destruct (scan_foldl_scanned items
              {| listed := ∅; roots := []; using_proxy := p |})
    as ([Hnd _] & Hin & Hp).
  { split; [constructor|]. intros url. unfold is_listed. simpl.
    rewrite lookup_empty, elem_of_nil. simpl. split; [discriminate|done]. }
  split; [done|]. split; [|done].
  intros url. rewrite (Hin url). simpl. rewrite elem_of_nil. tauto.
Qed.

Lemma sort_Strings_sorted l :
  Sorted String.le (sort_Strings l) /\ sort_Strings l ≡ₚ l.
Proof.
  split; [apply (Sorted_merge_sort String.le)|apply merge_sort_Permutation].
Qed.

(** However a set of strings is listed, sorting gives the same list. *)
Lemma sort_Strings_unique l1 l2 :
  NoDup l1 -> NoDup l2 -> (forall x, x ∈ l1 <-> x ∈ l2) ->
  sort_Strings l1 = sort_Strings l2.
Proof.
  intros H1 H2 Hin.
  apply (Sorted_unique String.le);
    [apply sort_Strings_sorted..|].
  rewrite !(proj2 (sort_Strings_sorted _)).
  by apply NoDup_Permutation.
Qed.
End discovering.

(** X1. When [ARVADOS_KEEP_PROXY] is not set and the list of services is
    fetched, [discoverKeepServers] returns no error and leaves in
    [Service_roots] the URLs of the services listed, each once, in increasing
    order; [Using_proxy] is what it was, or true if a proxy is listed. *)
Theorem discoverKeepServers_sorted (world : discovery.World)
  (this : KeepClient) (items : list discovery.keepDisk) :
  discovery.Getenv world "ARVADOS_KEEP_PROXY" = "" ->
  discovery.fetch world this = inr items ->
  let found := discovery.discoverKeepServers world this in
  found.2 = None
  /\ Sorted String.le (Service_roots found.1)
  /\ NoDup (Service_roots found.1)
  /\ (forall url,
        url ∈ Service_roots found.1
        <-> exists element,
              element ∈ items /\ url = discovery.service_url element)
  /\ Using_proxy found.1
     = Using_proxy this || existsb discovery.is_proxy items.
Proof.
  intros Henv Hfetch found. subst found.
  unfold discovery.discoverKeepServers. rewrite Henv, Hfetch. simpl.
  destruct (scan_items_scanned (Using_proxy this) items) as (Hnd & Hin & Hp).
  destruct (sort_Strings_sorted
              (discovery.roots (discovery.scan_items (Using_proxy this) items)))
    as [Hsorted Hperm].
  split; [done|]. split; [done|]. split; [by rewrite Hperm|].
  split; [|done].
  intros url. rewrite Hperm, Hin, list_elem_of_fmap.
  split; intros (element & H1 & H2); exists element; done.
Qed.

Lemma discoverKeepServers_sorted_witness :
  let found :=
    discovery.discoverKeepServers (plain listing) (client 2 [] api) in
  found.2 = None
  /\ Service_roots found.1
     = ["http://keep0:25107"; "http://keep1:25107"; "https://keepproxy:443"]
  /\ Sorted String.le (Service_roots found.1)
  /\ NoDup (Service_roots found.1)
  /\ Using_proxy found.1 = true.
Proof.
  intros found.
  destruct (discoverKeepServers_sorted (plain listing) (client 2 [] api)
              listing eq_refl eq_refl) as (He & Hs & Hnd & _ & Hp).
  split; [exact He|]. split; [vm_compute; reflexivity|].
  split; [exact Hs|]. split; [exact Hnd|]. exact Hp.
Defined.

(** X2. The order in which the API server lists the services, and how often
    it lists one, do not matter: two discoveries that find the same URLs
    leave the same [Service_roots], and so the same probe sequence for every
    hash. *)
Theorem discoverKeepServers_order_free (world1 world2 : discovery.World)
  (this1 this2 : KeepClient) (items1 items2 : list discovery.keepDisk) :
  discovery.Getenv world1 "ARVADOS_KEEP_PROXY" = "" ->
  discovery.Getenv world2 "ARVADOS_KEEP_PROXY" = "" ->
  discovery.fetch world1 this1 = inr items1 ->
  discovery.fetch world2 this2 = inr items2 ->
  (forall url, url ∈ discovery.service_url <$> items1
               <-> url ∈ discovery.service_url <$> items2) ->
  let found1 := (discovery.discoverKeepServers world1 this1).1 in
  let found2 := (discovery.discoverKeepServers world2 this2).1 in
  Service_roots found1 = Service_roots found2
  /\ forall hash,
      shuffledServiceRoots found1 hash = shuffledServiceRoots found2 hash.
Proof.
  intros Henv1 Henv2 Hf1 Hf2 Hsame found1 found2. subst found1 found2.
  assert (Service_roots (discovery.discoverKeepServers world1 this1).1
          = Service_roots (discovery.discoverKeepServers world2 this2).1) as E.
  { unfold discovery.discoverKeepServers.
    rewrite Henv1, Henv2, Hf1, Hf2. simpl.
    destruct (scan_items_scanned (Using_proxy this1) items1) as (N1 & I1 & _).
    destruct (scan_items_scanned (Using_proxy this2) items2) as (N2 & I2 & _).
    apply sort_Strings_unique; [done..|].
    intros url. by rewrite I1, I2. }
  split; [exact E|]. intros hash.
  unfold shuffledServiceRoots, shuffle_init. by rewrite E.
Qed.

Lemma discoverKeepServers_order_free_witness :
  let found1 :=
    (discovery.discoverKeepServers (plain listing) (client 2 [] api)).1 in
  let found2 :=
    (discovery.discoverKeepServers (plain (reverse listing))
       (client 3 three_roots api)).1 in
  Service_roots found1 = Service_roots found2
  /\ forall hash,
      shuffledServiceRoots found1 hash = shuffledServiceRoots found2 hash.
Proof.
  apply (discoverKeepServers_order_free (plain listing)
           (plain (reverse listing)) (client 2 [] api)
           (client 3 three_roots api) listing (reverse listing));
    try reflexivity.
  intros url. rewrite fmap_reverse, elem_of_reverse. done.
Defined.



(** ** One server *)

Lemma select_last hash st server :
  pool st = [server] -> forall st', select hash st = Returns st' ->
  pool st' = [] /\ pseq st' = pseq st ++ [server].
Proof.
  intros Hp st' E.
  apply select_inv in E as (_ & i & s' & _ & _ & _ & Hi & -> & ->).
  rewrite Hp in Hi |- *. destruct i as [|i]; [|by destruct i].
  injection Hi as <-. done.
Qed.

Lemma shuffle_single (this : KeepClient) (hash server : string) :
  Service_roots this = [server] ->
  ((4 <= String.length hash)%nat ->
   shuffledServiceRoots this hash = Returns [server])
  /\ ((String.length hash < 4)%nat ->
      shuffledServiceRoots this hash = Panics SliceBounds).
Proof.
  intros Hroots. pose proof (len_bytes hash) as Hl.
  unfold shuffledServiceRoots, shuffle_init. rewrite Hroots. simpl length.
  set (st := {| seed := bytes hash; pool := [server]; pseq := [] |}).
  rewrite (shuffle_loop_S 0 (bytes hash) st) by done.
  split; intros Hh.
  - assert (exists s, refill (bytes hash) (seed st) (pseq st) = Returns s
                      /\ 8 <= len s) as (s & Hr & Hs).
    { rewrite refill_Returns by lia. eexists. split; [done|]. simpl.
      destruct (Z.ltb_spec (len (bytes hash)) 8) as [Hlt|Hge]; [|done].
      assert (1 <= len (bytes hash) / 4) by (apply Z.div_le_lower_bound; lia).
      replace (len (@nil string) <? len (bytes hash) / 4) with true
        by (symmetry; apply Z.ltb_lt; unfold len at 1; simpl; lia).
      rewrite len_app. unfold len at 1. rewrite length_drop.
      unfold len in *. lia. }
    destruct (select_Returns_seed (bytes hash) st s Hr Hs) as [st' E]; [done|].
    rewrite E, bind_Returns.
    destruct (select_last (bytes hash) st server eq_refl st' E) as [Hp Hq].
    simpl. rewrite Hp, Hq. done.
  - assert (select (bytes hash) st = Panics SliceBounds) as ->; [|done].
    unfold select, refill. simpl seed. simpl pseq.
    replace (len (bytes hash) <? 8) with true
      by (symmetry; apply Z.ltb_lt; lia).
    replace (len (@nil string) <? len (bytes hash) / 4) with false.
    2:{ symmetry. apply Z.ltb_ge. rewrite Z.div_small by lia. done. }
    rewrite !bind_Returns, slice_Panics; [done|]. rewrite len_app. lia.
Qed.

(** X4. With a single server, as when a proxy is used, the probe sequence
    is that server for every hash of four digits or more, and
    [shuffledServiceRoots] panics for every shorter hash, the empty one
    included. *)
Theorem shuffledServiceRoots_single (this : KeepClient) (hash server : string) :
  Service_roots this = [server] ->
  ((4 <= String.length hash)%nat ->
   shuffledServiceRoots this hash = Returns [server])
  /\ ((String.length hash < 4)%nat ->
      shuffledServiceRoots this hash = Panics SliceBounds).
Proof. apply shuffle_single. Qed.

Lemma shuffledServiceRoots_single_witness :
  shuffledServiceRoots (client 2 ["http://keepproxy:25107"] silent) "abcd"
  = Returns ["http://keepproxy:25107"]
  /\ shuffledServiceRoots (client 2 ["http://keepproxy:25107"] silent) "abc"
     = Panics SliceBounds.
Proof.
  split.
  - destruct (shuffledServiceRoots_single
                (client 2 ["http://keepproxy:25107"] silent) "abcd"
                "http://keepproxy:25107" eq_refl) as [Hlong _].
    apply Hlong. vm_compute. lia.
  - destruct (shuffledServiceRoots_single
                (client 2 ["http://keepproxy:25107"] silent) "abc"
                "http://keepproxy:25107" eq_refl) as [_ Hshort].
    apply Hshort. vm_compute. lia.
Defined.

(** X5. When [ARVADOS_KEEP_PROXY] is set, [discoverKeepServers] returns no
    error whatever the network does, [Using_proxy] is set, and the probe
    sequence of every hash of four digits or more is the proxy alone. *)
Theorem discoverKeepServers_proxy (world : discovery.World)
  (this : KeepClient) :
  discovery.Getenv world "ARVADOS_KEEP_PROXY" <> "" ->
  let found := discovery.discoverKeepServers world this in
  found.2 = None
  /\ Using_proxy found.1 = true
  /\ forall hash,
      (4 <= String.length hash)%nat ->
      shuffledServiceRoots found.1 hash
      = Returns [discovery.Getenv world "ARVADOS_KEEP_PROXY"].
Proof.
  intros Henv found. subst found. unfold discovery.discoverKeepServers.
  destruct (String.eqb_spec (discovery.Getenv world "ARVADOS_KEEP_PROXY") "")
    as [E|_]; [done|]. simpl.
  split; [done|]. split; [done|]. intros hash Hh.
  by apply shuffle_single.
Qed.

Lemma discoverKeepServers_proxy_witness :
  let found :=
    discovery.discoverKeepServers proxied (client 2 three_roots silent) in
  found.2 = None
  /\ Using_proxy found.1 = true
  /\ forall hash,
      (4 <= String.length hash)%nat ->
      shuffledServiceRoots found.1 hash = Returns ["http://keepproxy:25107"].
Proof.
  apply (discoverKeepServers_proxy proxied (client 2 three_roots silent)).
  discriminate.
Defined.

(** ** The uploader *)

(** X6. The message of an uploader carries no error exactly when it
    reports status 200, and it names the URL [host/hash]. When the request
    cannot be built, or [Client.Do] brings no response back, the message
    carries the error, status 0 and no replica stored; the two errors occur
    in these cases only. With a response, the message reports the status of
    the response and the count of [X-Keep-Replicas-Stored], one replica if
    the header is missing. *)
Theorem uploadToKeepServer_status (this : KeepClient) (host hash : string)
  (expectedLength : Z) :
  let status := uploadToKeepServer this host hash expectedLength in
  let target := host +:+ "/" +:+ hash in
  let sent :=
    Do (Client this) (upload_request this host hash expectedLength) in
  (err status = None <-> statusCode status = 200)
  /\ url status = target
  /\ (NewRequest_ok (Client this) target = false \/ sent = None ->
      err status <> None
      /\ statusCode status = 0 /\ replicas_stored status = 0)
  /\ (err status = Some NewRequestError
      <-> NewRequest_ok (Client this) target = false)
  /\ (err status = Some TransportError
      <-> NewRequest_ok (Client this) target = true /\ sent = None)
  /\ (forall resp,
        NewRequest_ok (Client this) target = true -> sent = Some resp ->
        statusCode status = StatusCode resp
        /\ replicas_stored status = default 1 (X_Keep_Replicas_Stored resp)).
Proof.
  intros status target sent. subst status target sent.
  unfold uploadToKeepServer, upload_request.
  destruct (NewRequest_ok (Client this) _); simpl.
  - destruct (Do (Client this) _) as [resp|]; simpl.
    + destruct (Z.eqb_spec (StatusCode resp) 200) as [E|E]; simpl.
      * split; [done|]. split; [done|].
        split; [intros [?|?]; discriminate|].
        split; [split; discriminate|].
        split; [split; [discriminate|intros [_ ?]; discriminate]|].
        intros resp' _ [= <-]. done.
      * split; [split; [discriminate|done]|]. split; [done|].
        split; [intros [?|?]; discriminate|].
        split; [split; discriminate|].
        split; [split; [discriminate|intros [_ ?]; discriminate]|].
        intros resp' _ [= <-]. done.
    + split; [split; discriminate|]. split; [done|].
      split; [intros _; repeat split; discriminate|].
      split; [split; discriminate|]. split; [done|]. intros ? _ ?.
      discriminate.
  - split; [split; discriminate|]. split; [done|].
    split; [intros _; repeat split; discriminate|].
    split; [done|]. split; [split; [discriminate|intros [? _]; discriminate]|].
    intros ? ?. discriminate.
Qed.

Lemma uploadToKeepServer_status_witness :
  (let status :=
     uploadToKeepServer (client 2 three_roots unbuildable)
       "http://keep0:25107" foo 0 in
   err status <> None /\ statusCode status = 0 /\ replicas_stored status = 0)
  /\ (let status :=
        uploadToKeepServer (client 2 three_roots silent)
          "http://keep0:25107" foo 0 in
      err status <> None
      /\ statusCode status = 0 /\ replicas_stored status = 0)
  /\ (let status :=
        uploadToKeepServer (client 2 three_roots answering)
          "http://keep1:25107" foo 0 in
      statusCode status = 200 /\ replicas_stored status = 3).
Proof.
  split; [|split].
  - destruct (uploadToKeepServer_status (client 2 three_roots unbuildable)
                "http://keep0:25107" foo 0) as (_ & _ & Hfail & _).
    apply Hfail. left. reflexivity.
  - destruct (uploadToKeepServer_status (client 2 three_roots silent)
                "http://keep0:25107" foo 0) as (_ & _ & Hfail & _).
    apply Hfail. right. reflexivity.
  - destruct (uploadToKeepServer_status (client 2 three_roots answering)
                "http://keep1:25107" foo 0) as (_ & _ & _ & _ & _ & Hresp).
    apply (Hresp {| StatusCode := 200; Status := "200 OK";
                    X_Keep_Replicas_Stored := Some 3 |}); reflexivity.
Defined.

(** ** More on placing replicas *)

Lemma append_length (s t : string) :
  String.length (s +:+ t) = (String.length s + String.length t)%nat.
Proof. induction s as [|c s IH]; simpl; [done|]. by rewrite IH. Qed.

Lemma append_inj_r (s1 s2 t : string) : s1 +:+ t = s2 +:+ t -> s1 = s2.
Proof.
  revert s2. induction s1 as [|c1 s1 IH]; intros [|c2 s2] E.
  - done.
  - apply (f_equal String.length) in E.
    rewrite !append_length in E. simpl in E. lia.
  - apply (f_equal String.length) in E.
    rewrite !append_length in E. simpl in E. lia.
  - change (String c1 (s1 +:+ t) = String c2 (s2 +:+ t)) in E.
    injection E as -> E. f_equal. by apply IH.
Qed.

Lemma upload_url (this : KeepClient) (host hash : string) (expectedLength : Z) :
  url (uploadToKeepServer this host hash expectedLength) = host +:+ "/" +:+ hash.
Proof.
  unfold uploadToKeepServer.
  destruct (NewRequest_ok (Client this) _); simpl; [|done].
  destruct (Do (Client this) _) as [resp|]; simpl; [|done].
  by destruct (StatusCode resp =? 200).
Qed.

(** The run of [putReplicas], with the probe sequence it follows. *)
Lemma putReplicas_run_probes (this : KeepClient) (hash : string)
  (expectedLength : Z) (sched : nat -> nat) :
  (8 <= String.length hash)%nat ->
  exists sv p,
    shuffledServiceRoots this hash = Returns sv
    /\ sv ≡ₚ Service_roots this
    /\ putReplicas_run this hash expectedLength sched = Returns p
    /\ putReplicas this hash expectedLength sched
       = Returns (replicas p, failure p)
    /\ visits this hash expectedLength sv (final p)
    /\ settled this sv p.
Proof.
  intros Hh.
  destruct (shuffledServiceRoots_Returns this hash Hh) as (sv & Esv & Hperm).
  destruct (put_loop_Returns this hash expectedLength sv sched
              (S (length sv)) (placer_init this)) as (p & E & Hs).
  - apply init_consistent.
  - simpl. lia.
  - exists sv, p. unfold putReplicas, putReplicas_run.
    rewrite Esv, !bind_Returns, E. repeat split; try done.
    eapply put_loop_visits; [apply visits_init|exact E].
Qed.

(** X7. In every execution of [putReplicas] the servers asked are the first
    [next_server] servers of the probe sequence, each asked once: their
    messages are those received and those still awaited. No server is asked
    again after a failure, and none out of turn. *)
Theorem putReplicas_probe_order (this : KeepClient) (hash : string)
  (expectedLength : Z) (sched : nat -> nat) :
  (8 <= String.length hash)%nat ->
  exists sv p,
    shuffledServiceRoots this hash = Returns sv
    /\ putReplicas_run this hash expectedLength sched = Returns p
    /\ 0 <= next_server (final p) <= len sv
    /\ in_flight (final p) ++ received (final p) ≡ₚ
         (fun host => uploadToKeepServer this host hash expectedLength)
           <$> take (Z.to_nat (next_server (final p))) sv.
Proof.
  intros Hh.
  destruct (putReplicas_run_probes this hash expectedLength sched Hh)
    as (sv & p & Esv & _ & E & _ & Hv & _).
  exists sv, p. split; [done|]. split; [done|].
  by destruct (visits_consistent _ _ _ _ _ Hv) as (Hn & _ & Hp).
Qed.

Lemma putReplicas_probe_order_witness :
  exists sv p,
    shuffledServiceRoots (client 2 three_roots answering) foo = Returns sv
    /\ putReplicas_run (client 2 three_roots answering) foo 0 in_order
       = Returns p
    /\ 0 <= next_server (final p) <= len sv
    /\ in_flight (final p) ++ received (final p) ≡ₚ
         (fun host =>
            uploadToKeepServer (client 2 three_roots answering) host foo 0)
           <$> take (Z.to_nat (next_server (final p))) sv.
Proof.
  apply (putReplicas_probe_order (client 2 three_roots answering) foo 0
           in_order).
  vm_compute. lia.
Defined.

(** X8. If the servers of [Service_roots] are all different, no URL gets
    two uploads of the block during a [putReplicas]. *)
Theorem putReplicas_once (this : KeepClient) (hash : string)
  (expectedLength : Z) (sched : nat -> nat) :
  (8 <= String.length hash)%nat ->
  NoDup (Service_roots this) ->
  exists p,
    putReplicas_run this hash expectedLength sched = Returns p
    /\ NoDup (url <$> in_flight (final p) ++ received (final p)).
Proof.
  intros Hh Hnd.
  destruct (putReplicas_run_probes this hash expectedLength sched Hh)
    as (sv & p & _ & Hperm & E & _ & Hv & _).
  exists p. split; [done|].
  destruct (visits_consistent _ _ _ _ _ Hv) as (_ & _ & Hp).
  rewrite Hp, <- list_fmap_compose.
  apply NoDup_fmap_2_strong.
  - intros h1 h2 _ _. simpl. rewrite !upload_url. apply append_inj_r.
  - assert (NoDup sv) as Hsv by (by rewrite Hperm).
    eapply sublist_NoDup; eauto using sublist_take.
Qed.

Lemma putReplicas_once_witness :
  exists p,
    putReplicas_run (client 2 three_roots answering) foo 0 in_order
    = Returns p
    /\ NoDup (url <$> in_flight (final p) ++ received (final p)).
Proof.
  apply (putReplicas_once (client 2 three_roots answering) foo 0 in_order).
  - vm_compute. lia.
  - apply (bool_decide_unpack _). vm_compute. exact I.
Defined.

(** X9. With counts that are not negative, what [putReplicas] returns does
    not depend on the order in which the uploads complete: it is
    [(Want_replicas, nil)] if the replicas that the servers of
    [Service_roots] report stored add up to [Want_replicas] or more, and
    that sum with [InsufficientReplicasError] otherwise. *)
Theorem putReplicas_order_free (this : KeepClient) (hash : string)
  (expectedLength : Z) (sched : nat -> nat) :
  (8 <= String.length hash)%nat ->
  is_int (Want_replicas this) ->
  Forall (fun host =>
            plausible (uploadToKeepServer this host hash expectedLength))
    (Service_roots this) ->
  let total :=
    stored ((fun host => uploadToKeepServer this host hash expectedLength)
              <$> Service_roots this) in
  putReplicas this hash expectedLength sched
  = Returns (if Want_replicas this <=? total
             then (Want_replicas this, None)
             else (total, Some InsufficientReplicasError)).
Proof.
  intros Hh Hw Hr total.
  destruct (putReplicas_run_probes this hash expectedLength sched Hh)
    as (sv & p & _ & Hperm & _ & E & Hv & Hs).
  assert (Forall (fun host =>
            plausible (uploadToKeepServer this host hash expectedLength)) sv)
    as Hr' by (by rewrite Hperm).
  pose proof (visits_consistent _ _ _ _ _ Hv) as Hok.
  pose proof (visits_balanced _ _ _ _ _ Hw Hr' Hv) as Hb.
  pose proof (received_nonneg _ _ _ _ Hr' _ Hok) as H0.
  pose proof (received_le_all this hash expectedLength sv (final p) Hr' Hok)
    as Hle.
  assert (stored ((fun host =>
            uploadToKeepServer this host hash expectedLength) <$> sv)
          = total) as Hall.
  { subst total. apply stored_perm. by apply fmap_Permutation. }
  rewrite Hall in Hle. rewrite E. f_equal.
  unfold settled, balanced in *. destruct (failure p) as [e|].
  - destruct Hs as (-> & Hn & Hpos & Hfl & Hnext).
    assert (stored (received (final p)) = total) as Hrec.
    { rewrite <- Hall. apply stored_perm.
      destruct Hok as (_ & _ & Hp). rewrite Hfl, Hnext in Hp. simpl in Hp.
      rewrite Hp, take_ge by (unfold len; lia). done. }
    rewrite int_id in Hn by (unfold is_int, min_int, max_int in *; lia).
    destruct (Z.leb_spec (Want_replicas this) total); [lia|].
    f_equal. lia.
  - destruct Hs as (-> & Hrem).
    destruct (Z.leb_spec (Want_replicas this) total); [done|lia].
Qed.

Lemma putReplicas_order_free_witness :
  putReplicas (client 5 three_roots answering) foo 0 in_order
  = Returns (4, Some InsufficientReplicasError)
  /\ putReplicas (client 5 three_roots answering) foo 0 (fun k => S k)
     = Returns (4, Some InsufficientReplicasError)
  /\ putReplicas (client 4 three_roots answering) foo 0 (fun k => S k)
     = Returns (4, None).
Proof.
  assert (forall want sched,
            0 <= want <= 5 ->
            putReplicas (client want three_roots answering) foo 0 sched
            = Returns (if want <=? 4 then (want, None)
                       else (4, Some InsufficientReplicasError))) as H.
  { intros want sched Hwant.
    apply (putReplicas_order_free (client want three_roots answering) foo 0
             sched).
    - vm_compute. lia.
    - unfold is_int, min_int, max_int. simpl. lia.
    - repeat (constructor; [vm_compute; intros _; split; discriminate|]).
      constructor. }
  split; [apply (H 5); lia|]. split; [apply (H 5); lia|apply (H 4); lia].
Defined.

Lemma stored_all_one (log : list uploadStatus) :
  Forall (fun status => statusCode status = 200 /\ replicas_stored status = 1)
    log ->
  stored log = len log.
Proof.
  unfold len. induction 1 as [|status log [E200 E1] _ IH]; [done|].
  rewrite stored_cons, IH, E200, E1. change (200 =? 200) with true.
  cbv iota. simpl length. lia.
Qed.

(** X10. With servers that report one replica at most, [putReplicas] never
    asks more servers than [Want_replicas] plus the number of messages
    received that stored nothing. When every server is healthy and there are
    enough of them, it asks exactly [Want_replicas] servers, the first of
    the probe sequence, and succeeds. *)
Theorem putReplicas_frugal (this : KeepClient) (hash : string)
  (expectedLength : Z) (sched : nat -> nat) :
  (8 <= String.length hash)%nat ->
  is_int (Want_replicas this) -> 0 <= Want_replicas this ->
  Forall (fun host =>
            let status := uploadToKeepServer this host hash expectedLength in
            statusCode status = 200 -> 0 <= replicas_stored status <= 1)
    (Service_roots this) ->
  exists p,
    putReplicas_run this hash expectedLength sched = Returns p
    /\ next_server (final p)
       <= Want_replicas this
          + (len (received (final p)) - stored (received (final p)))
    /\ (Forall (fun host => healthy this hash expectedLength host = true)
          (Service_roots this) ->
        Want_replicas this <= len (Service_roots this) ->
        failure p = None /\ next_server (final p) = Want_replicas this).
Proof.
  intros Hh Hw H0 Hone.
  destruct (putReplicas_run_probes this hash expectedLength sched Hh)
    as (sv & p & _ & Hperm & E & _ & Hv & Hs).
  assert (Forall (fun host =>
            let status := uploadToKeepServer this host hash expectedLength in
            statusCode status = 200 -> 0 <= replicas_stored status <= 1) sv)
    as Hone' by (by rewrite Hperm).
  assert (Forall (fun host =>
            plausible (uploadToKeepServer this host hash expectedLength)) sv)
    as Hr.
  { eapply Forall_impl; [exact Hone'|]. intros host Hs' E200.
    specialize (Hs' E200). unfold max_int. simpl in Hs'. lia. }
  pose proof (visits_consistent _ _ _ _ _ Hv) as Hok.
  pose proof (visits_balanced _ _ _ _ _ Hw Hr Hv) as Hb.
  destruct (visits_bounded _ _ _ _ _ Hw H0 Hone' Hv) as [Hact _].
  destruct Hok as (Hn & Ha & Hp).
  assert (next_server (final p)
          = len (in_flight (final p)) + len (received (final p))) as Hnext.
  { apply Permutation_length in Hp.
    rewrite length_app, length_fmap, length_take in Hp.
    unfold len in *. lia. }
  unfold balanced in Hb.
  exists p. split; [done|]. split; [lia|].
  intros Hall Hmany.
  assert (stored (received (final p)) = len (received (final p))) as Hrec.
  { apply stored_all_one.
    assert (Forall (fun status =>
              statusCode status = 200 /\ replicas_stored status = 1)
              (in_flight (final p) ++ received (final p))) as Hboth.
    { rewrite Hp. apply Forall_fmap, Forall_take. rewrite Hperm.
      eapply Forall_impl; [exact Hall|]. intros host Hhost. simpl.
      unfold healthy in Hhost. apply andb_true_iff in Hhost as [H1 H2].
      by apply Z.eqb_eq in H1, H2. }
    by apply Forall_app in Hboth as [_ ?]. }
  assert (len sv = len (Service_roots this)) as Hlen.
  { unfold len. by rewrite Hperm. }
  unfold settled in Hs. destruct (failure p) as [e|].
  - destruct Hs as (_ & _ & Hpos & Hfl & Hend). rewrite Hfl in Hnext.
    unfold len at 1 in Hnext. simpl in Hnext. lia.
  - destruct Hs as (_ & Hrem). split; [done|]. pose proof (len_nonneg
      (in_flight (final p))). lia.
Qed.

Lemma putReplicas_frugal_witness :
  (exists p,
      putReplicas_run (client 2 three_roots two_healthy) foo 0 in_order
      = Returns p
      /\ next_server (final p)
         <= 2 + (len (received (final p)) - stored (received (final p))))
  /\ (exists p,
        putReplicas_run (client 2 three_roots all_healthy) foo 0 in_order
        = Returns p
        /\ failure p = None /\ next_server (final p) = 2).
Proof.
  split.
  - destruct (putReplicas_frugal (client 2 three_roots two_healthy) foo 0
                in_order) as (p & E & Hbound & _).
    + vm_compute. lia.
    + vm_compute. split; discriminate.
    + vm_compute. discriminate.
    + repeat (constructor; [vm_compute; intros _; split; discriminate|]).
      constructor.
    + exists p. split; [exact E|exact Hbound].
  - destruct (putReplicas_frugal (client 2 three_roots all_healthy) foo 0
                in_order) as (p & E & _ & Hall).
    + vm_compute. lia.
    + vm_compute. split; discriminate.
    + vm_compute. discriminate.
    + repeat (constructor; [vm_compute; intros _; split; discriminate|]).
      constructor.
    + exists p. split; [exact E|]. apply Hall.
      * repeat (constructor; [vm_compute; reflexivity|]). constructor.
      * vm_compute. discriminate.
Defined.

(** X11. [putReplicas] starts no upload exactly when nothing is wanted or
    there is no server. If [Want_replicas] is zero or negative it returns
    that number and no error; if replicas are wanted and [Service_roots] is
    empty it returns zero and [InsufficientReplicasError]. *)
Theorem putReplicas_idle (this : KeepClient) (hash : string)
  (expectedLength : Z) (sched : nat -> nat) :
  (8 <= String.length hash)%nat ->
  is_int (Want_replicas this) ->
  exists p,
    putReplicas_run this hash expectedLength sched = Returns p
    /\ (next_server (final p) = 0
        <-> Want_replicas this <= 0 \/ Service_roots this = [])
    /\ (Want_replicas this <= 0 ->
        replicas p = Want_replicas this /\ failure p = None)
    /\ (0 < Want_replicas this -> Service_roots this = [] ->
        replicas p = 0 /\ failure p = Some InsufficientReplicasError).
Proof.
  intros Hh Hw.
  destruct (putReplicas_run_Returns this hash expectedLength sched Hh)
    as (sv & p & Hperm & E & _ & Hv & Hs & Hpos).
  pose proof (visits_consistent _ _ _ _ _ Hv) as (Hn & Ha & Hp).
  pose proof (visits_deficit _ _ _ _ _ Hw Hv) as Hd.
  assert (next_server (final p) = 0 -> received (final p) = []) as Hnone.
  { intros E0. rewrite E0 in Hp. simpl in Hp.
    apply Permutation_nil_r in Hp. by apply app_eq_nil in Hp as [_ ?]. }
  assert (received (final p) = [] ->
          remaining_replicas (final p) = Want_replicas this) as Hsame.
  { intros E0. rewrite Hd, E0. simpl. rewrite Z.sub_0_r. by apply int_id. }
  assert (Service_roots this = [] <-> len sv = 0) as Hempty.
  { unfold len. split.
    - intros E0. rewrite E0 in Hperm. by apply Permutation_nil_r in Hperm as ->.
    - intros E0. destruct sv; [|simpl in E0; lia].
      by apply Permutation_nil_l in Hperm. }
  exists p. split; [done|]. unfold settled in Hs.
  destruct (failure p) as [e|] eqn:Ef.
  - destruct Hs as (-> & Hrep & Hrem & Hfl & Hend).
    specialize (Hpos ltac:(done)). split; [|split].
    + rewrite Hend, <- Hempty. split; [auto|]. intros [?|?]; [lia|done].
    + lia.
    + intros _ Hnil. apply Hempty in Hnil. split; [|done].
      rewrite Hrep, Hsame by (apply Hnone; lia).
      rewrite Z.sub_diag. reflexivity.
  - destruct Hs as (Hrep & Hrem). split; [|split].
    + split.
      * intros E0. left. rewrite Hsame in Hrem by auto. done.
      * intros [Hle|Hnil]; [|apply Hempty in Hnil; lia].
        destruct (decide (next_server (final p) = 0)) as [|Hne]; [done|].
        exfalso. clear Hnone Hsame.
        assert (forall st, visits this hash expectedLength sv st ->
                           st = placer_init this) as Hinit.
        { induction 1 as [|st host _ IH Hr _ _ _|st c status st' _ IH Hr _ _].
          - done.
          - rewrite IH in Hr. simpl in Hr. lia.
          - rewrite IH in Hr. simpl in Hr. lia. }
        rewrite (Hinit _ Hv) in Hne. done.
    + done.
    + intros Hwant Hnil. exfalso. apply Hempty in Hnil.
      rewrite Hsame in Hrem by (apply Hnone; lia). lia.
Qed.

Lemma putReplicas_idle_witness :
  putReplicas_run (client 0 three_roots answering) foo 0 in_order
  = Returns {| replicas := 0; failure := None;
               final := placer_init (client 0 three_roots answering) |}
  /\ putReplicas (client 2 [] answering) foo 0 in_order
     = Returns (0, Some InsufficientReplicasError).
Proof.
  split.
  - destruct (putReplicas_idle (client 0 three_roots answering) foo 0
                in_order) as (p & E & _ & _); [vm_compute; lia| |].
    + vm_compute. split; discriminate.
    + rewrite E. pose proof E as E'. vm_compute in E'.
      injection E' as <-. vm_compute. reflexivity.
  - destruct (putReplicas_idle (client 2 [] answering) foo 0 in_order)
      as (p & E & _ & _ & Hnil); [vm_compute; lia| |].
    + vm_compute. split; discriminate.
    + destruct Hnil as [Hn Hf]; [reflexivity..|].
      unfold putReplicas. rewrite E, bind_Returns, Hn, Hf. reflexivity.
Defined.

(** ** The memory-backed gateway *)

(** X12. [keepGatewayMemoryBacked.ReadAt] on a block it holds, at an offset
    that is not negative: it puts into the buffer the bytes of the block
    from the offset on, as many as the buffer takes and the block has, and
    returns [io.EOF] exactly when that is fewer than the buffer asks for,
    a read at or past the end of the block included. *)
Theorem keepGatewayMemoryBacked_ReadAt_range
  (k : arvados.keepGatewayMemoryBacked) (locator : string)
  (blk : list Byte.byte) (dst offset : Z) :
  arvados.block k locator = Some blk -> 0 <= offset -> 0 <= dst ->
  let got := take (Z.to_nat dst) (drop (Z.to_nat offset) blk) in
  arvados.keepGatewayMemoryBacked_ReadAt k locator dst offset
  = Returns (got, if offset + dst <=? len blk then None
                  else if dst =? 0 then None else Some arvados.EOF)
  /\ len got = Z.min dst (Z.max 0 (len blk - offset)).
Proof.
  intros Hb Ho Hd got.
  assert (len got = Z.min dst (Z.max 0 (len blk - offset))) as Hlen.
  { subst got. unfold len. rewrite length_take, length_drop. lia. }
  split; [|done].
  unfold arvados.keepGatewayMemoryBacked_ReadAt. rewrite Hb.
  assert ((if offset <? len blk
           then tail ← slice_from blk offset;
                Returns (arvados.copy dst tail)
           else Returns []) = Returns got) as ->.
  { destruct (Z.ltb_spec offset (len blk)) as [Hlt|Hge].
    - rewrite slice_from_Returns by lia. done.
    - subst got. rewrite drop_ge by (unfold len in Hge; lia).
      by rewrite take_nil. }
  rewrite bind_Returns.
  destruct (Z.ltb_spec (len got) dst) as [Hshort|Hfull];
    destruct (Z.leb_spec (offset + dst) (len blk));
    destruct (Z.eqb_spec dst 0); try done; lia.
Qed.

Lemma keepGatewayMemoryBacked_ReadAt_range_witness :
  arvados.keepGatewayMemoryBacked_ReadAt backend loc8 4 6
  = Returns (repeat Byte.x2a 2, Some arvados.EOF)
  /\ arvados.keepGatewayMemoryBacked_ReadAt backend loc8 4 8
     = Returns ([], Some arvados.EOF)
  /\ arvados.keepGatewayMemoryBacked_ReadAt backend loc8 0 9
     = Returns ([], None).
Proof.
  split; [|split].
  - apply (keepGatewayMemoryBacked_ReadAt_range backend loc8 block8 4 6);
      [reflexivity|lia|lia].
  - apply (keepGatewayMemoryBacked_ReadAt_range backend loc8 block8 4 8);
      [reflexivity|lia|lia].
  - apply (keepGatewayMemoryBacked_ReadAt_range backend loc8 block8 0 9);
      [reflexivity|lia|lia].
Defined.

Section gateway_writes.
Variable md5 : list Byte.byte -> list Byte.byte.
Implicit Types (k : arvados.keepGatewayMemoryBacked)
  (opts : arvados.BlockWriteOptions).

Lemma BlockWrite_block k opts locator :
  arvados.block (arvados.keepGatewayMemoryBacked_BlockWrite md5 k opts).1
    locator
  = if decide (locator = arvados.locator_of md5 (arvados.content opts))
    then match arvados.content opts with
         | [] => None
         | b :: bs => Some (b :: bs)
         end
    else arvados.block k locator.
Proof.
  unfold arvados.block, arvados.keepGatewayMemoryBacked_BlockWrite. simpl.
  destruct (decide (locator = _)) as [->|Hne].
  - rewrite lookup_insert_eq. by destruct (arvados.content opts).
  - by rewrite lookup_insert_ne.
Qed.

Lemma BlockWrite_locator k opts :
  arvados.Locator (arvados.keepGatewayMemoryBacked_BlockWrite md5 k opts).2.1
  = arvados.locator_of md5 (arvados.content opts).
Proof. reflexivity. Qed.


(** X14. A write to the memory-backed gateway changes what is read under
    the locator it returns and nothing else; writing the same bytes again
    changes nothing. *)
Theorem keepGatewayMemoryBacked_write_frame k opts locator :
  let written := arvados.keepGatewayMemoryBacked_BlockWrite md5 k opts in
  locator <> arvados.Locator written.2.1 ->
  arvados.keepGatewayMemoryBacked_BlockRead written.1 locator
  = arvados.keepGatewayMemoryBacked_BlockRead k locator
  /\ (forall dst offset,
        arvados.keepGatewayMemoryBacked_ReadAt written.1 locator dst offset
        = arvados.keepGatewayMemoryBacked_ReadAt k locator dst offset)
  /\ arvados.keepGatewayMemoryBacked_BlockWrite md5 written.1 opts = written.
Proof.
  intros written Hne. subst written. rewrite BlockWrite_locator in Hne.
  pose proof (BlockWrite_block k opts locator) as Hb.
  rewrite decide_False in Hb by done.
  split; [|split].
  - unfold arvados.keepGatewayMemoryBacked_BlockRead. by rewrite Hb.
  - intros dst offset.
    unfold arvados.keepGatewayMemoryBacked_ReadAt. by rewrite Hb.
  - unfold arvados.keepGatewayMemoryBacked_BlockWrite. simpl.
    by rewrite insert_insert_eq.
Qed.
End gateway_writes.

Lemma keepGatewayMemoryBacked_write_frame_witness :
  let opts := {| arvados.Data := repeat Byte.x61 3; arvados.Reader := None |} in
  let written :=
    arvados.keepGatewayMemoryBacked_BlockWrite first16 backend opts in
  arvados.Locator written.2.1 = "61616161616161616161616161616161+3"
  /\ arvados.keepGatewayMemoryBacked_BlockRead written.1 loc8
     = (block8, None)
  /\ arvados.keepGatewayMemoryBacked_BlockWrite first16 written.1 opts
     = written.
Proof.
  intros opts written.
  destruct (keepGatewayMemoryBacked_write_frame first16 backend opts loc8)
    as (Hread & _ & Hagain); [discriminate|].
  split; [vm_compute; reflexivity|]. split; [|exact Hagain].
  subst written. rewrite Hread. reflexivity.
Defined.


(** ** Hashes with a common beginning *)

Section common_prefix.
Implicit Types (hash : list ascii) (st : shuffle).

Lemma bytes_append (s t : string) : bytes (s +:+ t) = bytes s ++ bytes t.
Proof.
  unfold bytes. induction s as [|c s IH]; [done|].
  change (String c s +:+ t) with (String c (s +:+ t)). simpl. by rewrite IH.
Qed.

(** A selection that finds eight digits in the seed does not look at the
    hash: the first eight digits of the seed choose the server. *)
Lemma select_full hash st st' :
  8 <= len (seed st) -> select hash st = Returns st' ->
  let i := N.to_nat ((ParseUint_16_32 (take 8 (seed st))).1
                     `mod` Z.to_N (len (pool st)))%N in
  exists server,
    pool st !! i = Some server
    /\ pseq st' = pseq st ++ [server]
    /\ pool st' = take i (pool st) ++ drop (S i) (pool st)
    /\ seed st' = drop 8 (seed st).
Proof.
  intros H8 E i. unfold select, refill in E.
  rewrite (proj2 (Z.ltb_ge _ _) H8), bind_Returns in E.
  rewrite slice_Returns, bind_Returns in E by lia.
  change (take (Z.to_nat (8 - 0)) (drop (Z.to_nat 0) (seed st)))
    with (take 8 (seed st)) in E.
  unfold umod in E.
  destruct (N.eqb_spec (Z.to_N (len (pool st))) 0) as [|_]; [discriminate|].
  rewrite bind_Returns in E. run_inv E. run_inv E. run_inv E. run_inv E.
  injection E as <-. simpl.
  apply index_inv in E0 as [_ Hs].
  unfold slice_to in E1. apply slice_inv in E1 as (_ & _ & ->).
  apply slice_from_inv in E2 as (_ & ->).
  apply slice_from_inv in E3 as (_ & ->).
  subst i.
  set (probe := ((ParseUint_16_32 (take 8 (seed st))).1
                 `mod` Z.to_N (len (pool st)))%N) in *.
  replace (Z.to_nat (Z.of_N probe - 0)) with (N.to_nat probe) by lia.
  replace (Z.to_nat (Z.of_N probe + 1)) with (S (N.to_nat probe)) by lia.
  replace (Z.to_nat (Z.of_N probe)) with (N.to_nat probe) in Hs by lia.
  change (Z.to_nat 0) with 0%nat. change (Z.to_nat 8) with 8%nat.
  rewrite drop_0. by exists r.
Qed.

Lemma shuffle_loop_extends fuel hash st out :
  shuffle_loop fuel hash st = Returns out -> exists rest, out = pseq st ++ rest.
Proof.
  revert st. induction fuel as [|fuel IH]; intros st E; simpl in E.
  - destruct (pool st); [|discriminate]. injection E as <-.
    exists []. by rewrite app_nil_r.
  - destruct (pool st).
    { injection E as <-. exists []. by rewrite app_nil_r. }
    run_inv E. apply IH in E as [rest ->].
    apply select_inv in E0 as (_ & _ & server & _ & _ & _ & _ & -> & _).
    exists (server :: rest). by rewrite <- app_assoc.
Qed.

Lemma shuffle_loop_agree (m : nat) :
  forall fuel1 fuel2 hash1 hash2 st1 st2 out1 out2,
    pool st1 = pool st2 -> pseq st1 = pseq st2 ->
    (8 * m <= length (seed st1))%nat -> (8 * m <= length (seed st2))%nat ->
    take (8 * m) (seed st1) = take (8 * m) (seed st2) ->
    shuffle_loop fuel1 hash1 st1 = Returns out1 ->
    shuffle_loop fuel2 hash2 st2 = Returns out2 ->
    take (length (pseq st1) + m) out1 = take (length (pseq st1) + m) out2.
Proof.
  induction m as [|m IH];
    intros fuel1 fuel2 hash1 hash2 st1 st2 out1 out2 Hp Hq H1 H2 Ht E1 E2.
  - apply shuffle_loop_extends in E1 as [r1 ->].
    apply shuffle_loop_extends in E2 as [r2 ->].
    rewrite <- Hq, Nat.add_0_r. by rewrite !take_app_length.
  - destruct (decide (pool st1 = [])) as [Ep|Hne1].
    { assert (shuffle_loop fuel1 hash1 st1 = Returns (pseq st1)) as E1'
        by (destruct fuel1; simpl; by rewrite Ep).
      assert (shuffle_loop fuel2 hash2 st2 = Returns (pseq st2)) as E2'
        by (destruct fuel2; simpl; by rewrite <- Hp, Ep).
      congruence. }
    assert (pool st2 <> []) as Hne2 by (by rewrite <- Hp).
    destruct fuel1 as [|fuel1];
      [simpl in E1; by destruct (pool st1)|].
    destruct fuel2 as [|fuel2];
      [simpl in E2; by destruct (pool st2)|].
    rewrite shuffle_loop_S in E1, E2 by done.
    run_inv E1. run_inv E2.
    apply select_full in E as (s1 & Hi1 & Hq1 & Hp1 & Hs1);
      [|unfold len; lia].
    apply select_full in E0 as (s2 & Hi2 & Hq2 & Hp2 & Hs2);
      [|unfold len; lia].
    assert (take 8 (seed st1) = take 8 (seed st2)) as H8.
    { apply (f_equal (take 8)) in Ht. rewrite !take_take in Ht.
      by replace (8 `min` (8 * S m))%nat with 8%nat in Ht by lia. }
    rewrite <- Hp, <- H8, Hi1 in Hi2. injection Hi2 as <-.
    rewrite <- Hp, <- H8 in Hp2. rewrite <- Hq in Hq2.
    assert (take (length (pseq r) + m) out1
            = take (length (pseq r) + m) out2) as Hout.
    { apply (IH fuel1 fuel2 hash1 hash2 r r0); try done.
      - by rewrite Hp1, Hp2.
      - by rewrite Hq1, Hq2.
      - rewrite Hs1, length_drop. lia.
      - rewrite Hs2, length_drop. lia.
      - rewrite Hs1, Hs2, !take_drop_commute.
        replace (8 + 8 * m)%nat with (8 * S m)%nat by lia. by rewrite Ht. }
    rewrite Hq1, length_app in Hout. simpl in Hout.
    by replace (length (pseq st1) + S m)%nat
      with (length (pseq st1) + 1 + m)%nat by lia.
Qed.
End common_prefix.

(** X15. The first [k] servers of the probe sequence depend on the first
    [8 * k] digits of the hash only: two hashes that begin with the same
    [8 * k] digits are probed at the same [k] servers first, in the same
    order, whatever follows those digits. *)
Theorem shuffledServiceRoots_prefix (this : KeepClient)
  (common rest1 rest2 : string) (k : nat) :
  (1 <= k)%nat -> String.length common = (8 * k)%nat ->
  exists sv1 sv2,
    shuffledServiceRoots this (common +:+ rest1) = Returns sv1
    /\ shuffledServiceRoots this (common +:+ rest2) = Returns sv2
    /\ take k sv1 = take k sv2.
Proof.
  intros Hk Hc.
  assert (length (bytes common) = (8 * k)%nat) as Hb.
  { pose proof (len_bytes common) as Hl. unfold len in Hl. lia. }
  assert (forall rest, (8 <= String.length (common +:+ rest))%nat) as Hlong.
  { intros rest. pose proof (len_bytes (common +:+ rest)) as Hl.
    rewrite bytes_append in Hl. unfold len in Hl.
    rewrite length_app in Hl. lia. }
  destruct (shuffledServiceRoots_Returns this (common +:+ rest1) (Hlong _))
    as (sv1 & E1 & _).
  destruct (shuffledServiceRoots_Returns this (common +:+ rest2) (Hlong _))
    as (sv2 & E2 & _).
  exists sv1, sv2. split; [done|]. split; [done|].
  unfold shuffledServiceRoots in E1, E2.
  refine (shuffle_loop_agree k _ _ _ _
            (shuffle_init this (common +:+ rest1))
            (shuffle_init this (common +:+ rest2)) sv1 sv2
            eq_refl eq_refl _ _ _ E1 E2);
    unfold shuffle_init; cbn [seed]; rewrite ?bytes_append, ?length_app;
    try lia.
  rewrite <- Hb. by rewrite !take_app_length.
Qed.

Lemma shuffledServiceRoots_prefix_witness :
  exists sv1 sv2,
    shuffledServiceRoots (client 2 five_roots silent)
      ("acbd18db" +:+ "4cc2f85cedef654fccc4a4d8") = Returns sv1
    /\ shuffledServiceRoots (client 2 five_roots silent)
         ("acbd18db" +:+ "00000000") = Returns sv2
    /\ take 1 sv1 = take 1 sv2.
Proof.
  apply (shuffledServiceRoots_prefix (client 2 five_roots silent)
           "acbd18db" "4cc2f85cedef654fccc4a4d8" "00000000" 1);
    [lia|reflexivity].
Defined.
